(** * MiniMaxParser: a stack evaluator for nested [m(..,..)] / [M(..,..)]

    A shallow embedding of [MiniMaxParser._validate_expression] and
    [MiniMaxParser.evaluate] (with the nested [_read_number] and the
    [Stack] class they use), followed by the properties of the
    specification that concern them.

    Modelling choices.
    - An expression is a [list ascii]; [self.expression[i]] is
      [nth_error expression i], and the guard [i < len(self.expression)]
      that precedes every indexing in the source is the [Some] case.
      Every character outside the (ASCII) allowed set is rejected by the
      validator before [str.isdigit] or [int] is ever applied to it, so
      [isdigit] only has to be right on the allowed characters.
    - Python integers are unbounded: [Z].
    - the cells of the stack are Python values, an [int] or the pushed
      one-character [str]: [PyInt] and [PyStr].
    - [Stack._items] is a list whose head is the top of the stack.
    - every failure of the source is a [ValueError] distinguished by its
      message; [error] has one constructor per message.
    - the two [while] loops take fuel; [None] means that the fuel ran out
      (shown below never to happen with fuel [length expression]). *)

From Stdlib Require Import List Ascii String ZArith Lia Bool Arith.
Import ListNotations.

Local Open Scope char_scope.
Local Open Scope Z_scope.

(** ** Data *)

(** The messages of the [ValueError]s, in the order of the source:
    - [EmptyExpression]: "пустое выражение" (line 67)
    - [InvalidCharacter ch]: "недопустимый символ 'ch'" (line 71)
    - [UnmatchedClosingParen]: "закрывающая скобка без соответствующей
      открывающей" (line 80)
    - [UnbalancedParens]: "несбалансированные скобки" (line 82)
    - [NoOperator]: "должно быть хотя бы одно m или M" (line 85)
    - [NegativeNumberNotAllowed]: "числа должны быть положительными" (119)
    - [NonIntegerNotAllowed]: "допустимы только целые положительные" (122)
    - [InsufficientOperands]: "недостаточно аргументов для операции" (138)
    - [NonIntegerOperand]: "аргументы операции должны быть целыми
      числами" (line 141)
    - [MalformedOperatorPlacement]: "лишние аргументы в операции или
      неверный формат" (line 144)
    - [UnexpectedCharacter ch]: "неожиданный символ 'ch'" (line 154)
    - [NoResult]: "выражение не дало результата" (line 159)
    - [ExtraArguments]: "в выражении лишние аргументы или неполные
      операции" (line 164) *)
Inductive error : Type :=
| EmptyExpression
| InvalidCharacter (ch : ascii)
| UnmatchedClosingParen
| UnbalancedParens
| NoOperator
| NegativeNumberNotAllowed
| NonIntegerNotAllowed
| InsufficientOperands
| NonIntegerOperand
| MalformedOperatorPlacement
| UnexpectedCharacter (ch : ascii)
| NoResult
| ExtraArguments.

Inductive result (A : Type) : Type :=
| Ok (a : A)
| Err (e : error).

Arguments Ok {A} a.
Arguments Err {A} e.

(** What the stack holds: [number] (an [int]) or [char] (a [str]). *)
Inductive pyvalue : Type :=
| PyInt (n : Z)
| PyStr (c : ascii).

(** [isinstance(v, int)] *)
Definition is_int (v : pyvalue) : bool :=
  match v with
  | PyInt _ => true
  | PyStr _ => false
  end.

Definition expr := list ascii.

(** ** Characters *)

(** [ch.isdigit()] on the characters that can reach it. *)
Definition isdigit (ch : ascii) : bool :=
  let n := nat_of_ascii ch in
  ((48 <=? n) && (n <=? 57))%nat.

(** [int(ch)] for a digit character. *)
Definition int_of_char (ch : ascii) : Z :=
  Z.of_nat (nat_of_ascii ch) - 48.

Definition ALLOWED_CHARS : list ascii :=
  list_ascii_of_string "0123456789mM(),-.".

(** [ch in chars] *)
Definition char_in (ch : ascii) (chars : list ascii) : bool :=
  existsb (Ascii.eqb ch) chars.

(** [i < len(expression) and p(expression[i])] *)
Definition char_at_is (p : ascii -> bool) (expression : expr) (i : nat) : bool :=
  match nth_error expression i with
  | Some ch => p ch
  | None => false
  end.

(** ** class Stack *)

Module Stack.

Definition t := list pyvalue.

Definition empty : t := [].

Definition push (item : pyvalue) (s : t) : t := item :: s.

(** [None] is the [IndexError] of the source. *)
Definition pop (s : t) : option (pyvalue * t) :=
  match s with
  | [] => None
  | item :: s' => Some (item, s')
  end.


Definition is_empty (s : t) : bool :=
  (List.length s =? 0)%nat.

End Stack.

(** ** _validate_expression *)

(** [for ch in self.expression: if ch not in self.ALLOWED_CHARS: raise] *)
Fixpoint check_chars (expression : expr) : result unit :=
  match expression with
  | [] => Ok tt
  | ch :: rest =>
      if negb (char_in ch ALLOWED_CHARS) then Err (InvalidCharacter ch)
      else check_chars rest
  end.

(** The second [for] loop; the result is the final [balance]. *)
Fixpoint check_balance (expression : expr) (balance : Z) : result Z :=
  match expression with
  | [] => Ok balance
  | ch :: rest =>
      if Ascii.eqb ch "(" then check_balance rest (balance + 1)
      else if Ascii.eqb ch ")" then
        let balance := balance - 1 in
        if balance <? 0 then Err UnmatchedClosingParen
        else check_balance rest balance
      else check_balance rest balance
  end.

Definition _validate_expression (expression : expr) : result unit :=
  match expression with
  | [] => Err EmptyExpression
  | _ :: _ =>
      match check_chars expression with
      | Err e => Err e
      | Ok _ =>
          match check_balance expression 0 with
          | Err e => Err e
          | Ok balance =>
              if negb (balance =? 0) then Err UnbalancedParens
              else if negb (char_in "m" expression) && negb (char_in "M" expression)
                   then Err NoOperator
                   else Ok tt
          end
      end
  end.

(** ** evaluate *)

(** The loop of [_read_number]: [fuel] bounds the number of iterations. *)
Fixpoint _read_number_loop (fuel : nat) (expression : expr) (num : Z) (i : nat)
  : option (Z * nat) :=
  match nth_error expression i with
  | Some ch =>
      if isdigit ch then
        match fuel with
        | O => None
        | S fuel' =>
            _read_number_loop fuel' expression (num * 10 + int_of_char ch) (i + 1)
        end
      else Some (num, i)
  | None => Some (num, i)
  end.

(** [_read_number(start_idx)]; the loop runs at most once per character of
    the expression, so its length is fuel enough (see [_read_number_total]). *)
Definition _read_number (expression : expr) (start_idx : nat) : option (Z * nat) :=
  _read_number_loop (List.length expression) expression 0 start_idx.

(** The variables of the main loop: the index [i] and [self._stack]. *)
Record state : Type := mkState { pos : nat; stack : Stack.t }.

Inductive step_result : Type :=
| Continue (st : state)
| Raise (e : error).

(** [v == w] on the values the stack can hold. *)
Definition pyvalue_eqb (v w : pyvalue) : bool :=
  match v, w with
  | PyInt x, PyInt y => x =? y
  | PyStr c, PyStr d => Ascii.eqb c d
  | _, _ => false
  end.

(** The [elif char == ')'] branch: three pops under one [try], then the
    two type checks, then the push of [min(a, b)] or [max(a, b)]. *)
Definition reduce (s : Stack.t) : result Stack.t :=
  match Stack.pop s with
  | None => Err InsufficientOperands
  | Some (b, s1) =>
      match Stack.pop s1 with
      | None => Err InsufficientOperands
      | Some (a, s2) =>
          match Stack.pop s2 with
          | None => Err InsufficientOperands
          | Some (operator, s3) =>
              if negb (is_int a) || negb (is_int b) then Err NonIntegerOperand
              else if negb (existsb (pyvalue_eqb operator) [PyStr "m"; PyStr "M"])
              then Err MalformedOperatorPlacement
              else
                match a, b with
                | PyInt x, PyInt y =>
                    if pyvalue_eqb operator (PyStr "m")
                    then Ok (Stack.push (PyInt (Z.min x y)) s3)
                    else Ok (Stack.push (PyInt (Z.max x y)) s3)
                | _, _ => Err NonIntegerOperand (* excluded by the first test *)
                end
          end
      end
  end.

(** One iteration of [while i < len(self.expression)], entered with
    [char = self.expression[i]].  [None]: [_read_number] ran out of fuel. *)
Definition body (expression : expr) (char : ascii) (st : state)
  : option step_result :=
  let i := pos st in
  if Ascii.eqb char "-" && char_at_is isdigit expression (i + 1) then
    Some (Raise NegativeNumberNotAllowed)
  else if Ascii.eqb char "."
          || (isdigit char && char_at_is (Ascii.eqb ".") expression (i + 1)) then
    Some (Raise NonIntegerNotAllowed)
  else if isdigit char then
    match _read_number expression i with
    | None => None
    | Some (number, i') =>
        Some (Continue (mkState i' (Stack.push (PyInt number) (stack st))))
    end
  else if char_in char ["m"; "M"] then
    Some (Continue (mkState (i + 1) (Stack.push (PyStr char) (stack st))))
  else if Ascii.eqb char ")" then
    match reduce (stack st) with
    | Err e => Some (Raise e)
    | Ok s' => Some (Continue (mkState (i + 1) s'))
    end
  else if char_in char ["("; ","] then
    Some (Continue (mkState (i + 1) (stack st)))
  else Some (Raise (UnexpectedCharacter char)).

(** The main loop; [fuel] bounds the number of iterations.  The result is
    the stack at the exit of the loop, or the error raised in it. *)
Fixpoint scan (fuel : nat) (expression : expr) (st : state)
  : option (result Stack.t) :=
  match nth_error expression (pos st) with
  | None => Some (Ok (stack st))
  | Some char =>
      match fuel with
      | O => None
      | S fuel' =>
          match body expression char st with
          | None => None
          | Some (Raise e) => Some (Err e)
          | Some (Continue st') => scan fuel' expression st'
          end
      end
  end.

(** The lines after the loop. *)
Definition finish (s : Stack.t) : result pyvalue :=
  if Stack.is_empty s then Err NoResult
  else
    match Stack.pop s with
    | None => Err NoResult (* excluded by the test above *)
    | Some (result, s') =>
        if negb (Stack.is_empty s') then Err ExtraArguments
        else Ok result
    end.

(** [evaluate] of a parser whose [_stack] holds [s0]. *)
Definition evaluate_from (fuel : nat) (s0 : Stack.t) (expression : expr)
  : option (result pyvalue) :=
  match _validate_expression expression with
  | Err e => Some (Err e)
  | Ok _ =>
      match scan fuel expression (mkState 0 s0) with
      | None => None
      | Some (Err e) => Some (Err e)
      | Some (Ok s) => Some (finish s)
      end
  end.

(** [MiniMaxParser(expression).evaluate()]: the stack of a new parser is
    empty, and the length of the expression is fuel enough. *)
Definition evaluate (expression : expr) : option (result pyvalue) :=
  evaluate_from (List.length expression) Stack.empty expression.

Definition chars (s : string) : expr := list_ascii_of_string s.

(** ** The scan as a transition system *)

(** [reaches expression n st st']: [n] iterations of the main loop lead from
    [st] to [st'], none of them raising. *)
Inductive reaches (expression : expr) : nat -> state -> state -> Prop :=
| reaches_refl : forall st, reaches expression 0 st st
| reaches_step : forall n st st' st'' char,
    reaches expression n st st' ->
    nth_error expression (pos st') = Some char ->
    body expression char st' = Some (Continue st'') ->
    reaches expression (S n) st st''.

(** The state in which a new parser enters the loop. *)
Definition initial : state := mkState 0 Stack.empty.

(** ** The grammar of the specification: [E := digits | Op(E,E)] *)

Inductive op : Type := Min | Max.

Inductive tree : Type :=
| Lit (digits : list ascii)
| Node (o : op) (l r : tree).

Definition op_char (o : op) : ascii :=
  match o with
  | Min => "m"
  | Max => "M"
  end.

Definition apply_op (o : op) (a b : Z) : Z :=
  match o with
  | Min => Z.min a b
  | Max => Z.max a b
  end.

(** A literal is a non-empty run of decimal digits. *)
Fixpoint well_formed (t : tree) : bool :=
  match t with
  | Lit digits => negb (List.length digits =? 0)%nat && forallb isdigit digits
  | Node _ l r => well_formed l && well_formed r
  end.

(** The string of an expression tree. *)
Fixpoint render (t : tree) : expr :=
  match t with
  | Lit digits => digits
  | Node o l r => op_char o :: "(" :: render l ++ "," :: render r ++ [")"]
  end.

(** The number a run of digits denotes in base ten. *)
Definition decimal (digits : list ascii) : Z :=
  fold_left (fun n ch => n * 10 + int_of_char ch) digits 0.

(** The fold of the tree with [min] for [m] and [max] for [M]. *)
Fixpoint fold_tree (t : tree) : Z :=
  match t with
  | Lit digits => decimal digits
  | Node o l r => apply_op o (fold_tree l) (fold_tree r)
  end.

Definition is_node (t : tree) : bool :=
  match t with
  | Lit _ => false
  | Node _ _ _ => true
  end.

(** ** The rules of the validator, as the specification words them *)

Definition allowed (ch : ascii) : Prop := In ch ALLOWED_CHARS.

(** The running depth counter after the characters of [s]. *)
Fixpoint depth (s : expr) : Z :=
  match s with
  | [] => 0
  | ch :: rest =>
      (if Ascii.eqb ch "(" then 1 else if Ascii.eqb ch ")" then -1 else 0)
      + depth rest
  end.

(** ** An invariant of the scan *)

(** Either the stack holds something or no operator letter stands before
    the index. *)
Definition operators_kept (expression : expr) (st : state) : Prop :=
  stack st <> [] \/
  forall j ch, (j < pos st)%nat -> nth_error expression j = Some ch ->
               ch <> "m" /\ ch <> "M".

(** The cells that the scan puts on the stack: a number that is not
    negative, or one of the two operator letters. *)
Definition cell_ok (v : pyvalue) : Prop :=
  match v with
  | PyInt n => 0 <= n
  | PyStr c => c = "m" \/ c = "M"
  end.

(** [n] is the value of a literal of the expression: of a non-empty run of
    digits that no digit follows. *)
Definition literal_of (expression : expr) (n : Z) : Prop :=
  exists pre digits suf,
    expression = pre ++ digits ++ suf /\
    digits <> [] /\
    forallb isdigit digits = true /\
    char_at_is isdigit suf 0 = false /\
    n = decimal digits.

(** ** The parser as an object: what a call leaves in [self._stack] *)

(** [self._stack] is created by [__init__] and never reset, so a call of
    [evaluate] starts from the stack that the previous call on the same
    object left.  The definitions below are those of the section
    [evaluate] above, with the stack at the moment of a [raise] kept: a
    [pop] that has succeeded has removed its cell even if the branch then
    raises. *)

Definition reduce_st (s : Stack.t) : result unit * Stack.t :=
  match Stack.pop s with
  | None => (Err InsufficientOperands, s)
  | Some (b, s1) =>
      match Stack.pop s1 with
      | None => (Err InsufficientOperands, s1)
      | Some (a, s2) =>
          match Stack.pop s2 with
          | None => (Err InsufficientOperands, s2)
          | Some (operator, s3) =>
              if negb (is_int a) || negb (is_int b) then (Err NonIntegerOperand, s3)
              else if negb (existsb (pyvalue_eqb operator) [PyStr "m"; PyStr "M"])
              then (Err MalformedOperatorPlacement, s3)
              else
                match a, b with
                | PyInt x, PyInt y =>
                    if pyvalue_eqb operator (PyStr "m")
                    then (Ok tt, Stack.push (PyInt (Z.min x y)) s3)
                    else (Ok tt, Stack.push (PyInt (Z.max x y)) s3)
                | _, _ => (Err NonIntegerOperand, s3) (* excluded by the first test *)
                end
          end
      end
  end.

(** One iteration of the main loop: [Ok] with the next state, or the
    error raised with the state at the [raise]. *)
Definition body_st (expression : expr) (char : ascii) (st : state)
  : option (result unit * state) :=
  let i := pos st in
  if Ascii.eqb char "-" && char_at_is isdigit expression (i + 1) then
    Some (Err NegativeNumberNotAllowed, st)
  else if Ascii.eqb char "."
          || (isdigit char && char_at_is (Ascii.eqb ".") expression (i + 1)) then
    Some (Err NonIntegerNotAllowed, st)
  else if isdigit char then
    match _read_number expression i with
    | None => None
    | Some (number, i') =>
        Some (Ok tt, mkState i' (Stack.push (PyInt number) (stack st)))
    end
  else if char_in char ["m"; "M"] then
    Some (Ok tt, mkState (i + 1) (Stack.push (PyStr char) (stack st)))
  else if Ascii.eqb char ")" then
    match reduce_st (stack st) with
    | (Err e, s') => Some (Err e, mkState i s')
    | (Ok _, s') => Some (Ok tt, mkState (i + 1) s')
    end
  else if char_in char ["("; ","] then
    Some (Ok tt, mkState (i + 1) (stack st))
  else Some (Err (UnexpectedCharacter char), st).

(** The main loop: how it ends, and the stack it leaves. *)
Fixpoint scan_st (fuel : nat) (expression : expr) (st : state)
  : option (result unit * Stack.t) :=
  match nth_error expression (pos st) with
  | None => Some (Ok tt, stack st)
  | Some char =>
      match fuel with
      | O => None
      | S fuel' =>
          match body_st expression char st with
          | None => None
          | Some (Err e, st') => Some (Err e, stack st')
          | Some (Ok _, st') => scan_st fuel' expression st'
          end
      end
  end.

(** The lines after the loop. *)
Definition finish_st (s : Stack.t) : result pyvalue * Stack.t :=
  if Stack.is_empty s then (Err NoResult, s)
  else
    match Stack.pop s with
    | None => (Err NoResult, s) (* excluded by the test above *)
    | Some (result, s') =>
        if negb (Stack.is_empty s') then (Err ExtraArguments, s')
        else (Ok result, s')
    end.

Module MiniMaxParser.

Record t : Type := make { expression : expr; _stack : Stack.t }.

(** [MiniMaxParser(expression)] *)
Definition __init__ (expression : expr) : t := make expression Stack.empty.

(** [self.evaluate()]: what is returned or raised, and the object after
    the call. *)
Definition evaluate (self : t) : option (result pyvalue * t) :=
  match _validate_expression (expression self) with
  | Err e => Some (Err e, self)
  | Ok _ =>
      match scan_st (List.length (expression self)) (expression self)
                    (mkState 0 (_stack self)) with
      | None => None
      | Some (Err e, s) => Some (Err e, make (expression self) s)
      | Some (Ok _, s) =>
          let (r, s') := finish_st s in
          Some (r, make (expression self) s')
      end
  end.

End MiniMaxParser.

(** [k] calls of [evaluate()] on the object, then one more, the outcome of
    which is returned. *)
Fixpoint call_again (k : nat) (self : MiniMaxParser.t)
  : option (result pyvalue * MiniMaxParser.t) :=
  match k with
  | O => MiniMaxParser.evaluate self
  | S k' =>
      match MiniMaxParser.evaluate self with
      | None => None
      | Some (_, self') => call_again k' self'
      end
  end.

(** ** class MiniMaxConsole *)

(** [ch.isspace()], which decides what [str.strip()] removes, on the code
    points below 256: tab to carriage return, the four separators 28-31,
    the space, NEL (133) and the no-break space (160). *)
Definition isspace (ch : ascii) : bool :=
  let n := nat_of_ascii ch in
  (((9 <=? n) && (n <=? 13)) || ((28 <=? n) && (n <=? 32))
   || (n =? 133) || (n =? 160))%nat.

Fixpoint lstrip (s : expr) : expr :=
  match s with
  | [] => []
  | ch :: rest => if isspace ch then lstrip rest else s
  end.

Definition rstrip (s : expr) : expr := rev (lstrip (rev s)).

(** [s.strip()] *)
Definition strip (s : expr) : expr := rstrip (lstrip s).

(** What [run] writes to the terminal, one constructor per [print] and one
    for the prompt of [input]:
    - [Title]: "Калькулятор минимума и максимума"
    - [Example]: "Введите выражение, например: M(15,m(16,8))"
    - [Advice]: "Числа для ввода должны быть положительными и без
      пробелов."
    - [Prompt]: "Введите выражение: "
    - [EmptyLine]: "Ошибка: пустая строка. Попробуйте снова."
    - [Result v]: "Результат: " followed by [v]
    - [Message e]: the message of the [ValueError]
    - [TryAgain]: "Попробуйте ввести выражение снова." *)
Inductive printed : Type :=
| Title
| Example
| Advice
| Prompt
| EmptyLine
| Result (v : pyvalue)
| Message (e : error)
| TryAgain.

(** How [run] ends: by the [break] after a result, or by the [EOFError] of
    [input] when there is no line left to read. *)
Inductive ending : Type :=
| Returned
| EOFError.

Definition prepend (out : list printed) (r : list printed * ending)
  : list printed * ending :=
  (out ++ fst r, snd r).

(** The [while True] loop of [run] over the lines that [input] returns,
    in the order in which it returns them. *)
Fixpoint run_loop (inputs : list expr) : option (list printed * ending) :=
  match inputs with
  | [] => Some ([Prompt], EOFError)
  | line :: rest =>
      match strip line with
      | [] => option_map (prepend [Prompt; EmptyLine]) (run_loop rest)
      | expr =>
          match evaluate expr with
          | None => None
          | Some (Ok result) => Some ([Prompt; Result result], Returned)
          | Some (Err e) =>
              option_map (prepend [Prompt; Message e; TryAgain]) (run_loop rest)
          end
      end
  end.

(** [MiniMaxConsole().run()] *)
Definition run (inputs : list expr) : option (list printed * ending) :=
  option_map (prepend [Title; Example; Advice]) (run_loop inputs).

(** What the loop prints for a line that it does not accept. *)
Definition report (line : expr) : list printed :=
  match strip line with
  | [] => [Prompt; EmptyLine]
  | expr =>
      match evaluate expr with
      | Some (Err e) => [Prompt; Message e; TryAgain]
      | _ => []
      end
  end.

(** A line that the loop does not accept: blank, or one whose evaluation
    raises. *)
Definition rejected (line : expr) : Prop :=
  strip line = [] \/ exists e, evaluate (strip line) = Some (Err e).

(** [padded] is [line] with white space added at both ends. *)
Definition pad (line padded : expr) : Prop :=
  exists before after,
    forallb isspace before = true /\ forallb isspace after = true /\
    padded = before ++ line ++ after.

(** ** Sequences of calls on a [Stack] *)



(** ** The shapes of the stack during a scan *)

(** A string of opening parentheses and commas, the characters at which
    the scan does nothing. *)
Definition separators (l : expr) : Prop :=
  Forall (fun ch => ch = "(" \/ ch = ",") l.

(** The scan has pushed nothing yet; or it has pushed one operator letter
    and nothing else; or the stack is of another shape (and then stays
    so). *)
Definition stack_shape (expression : expr) (st : state) : Prop :=
  (stack st = [] /\ separators (firstn (pos st) expression)) \/
  (exists c l1 l2,
      stack st = [PyStr c] /\ (c = "m" \/ c = "M") /\
      firstn (pos st) expression = l1 ++ c :: l2 /\
      separators l1 /\ separators l2) \/
  (stack st <> [] /\ forall c, stack st <> [PyStr c]).

(** * Properties *)

Arguments char_in : simpl never.

(** ** Characters and indexing *)

Lemma char_in_In (ch : ascii) (l : list ascii) :
  char_in ch l = true <-> In ch l.
Proof.
  unfold char_in. rewrite existsb_exists. split.
  - intros [x [Hin Heq]]. apply Ascii.eqb_eq in Heq. now subst.
  - intros Hin. exists ch. split; [assumption | apply Ascii.eqb_refl].
Qed.

Lemma char_in_false (ch : ascii) (l : list ascii) :
  char_in ch l = false <-> ~ In ch l.
Proof.
  rewrite <- char_in_In. destruct (char_in ch l); split; congruence.
Qed.

Lemma isdigit_cases (ch : ascii) :
  isdigit ch = true ->
  In ch (list_ascii_of_string "0123456789").
Proof.
  destruct ch as [[] [] [] [] [] [] [] []]; vm_compute; intros H;
    try discriminate H; tauto.
Qed.

Lemma isdigit_allowed (ch : ascii) : isdigit ch = true -> allowed ch.
Proof.
  intros H. apply isdigit_cases in H. unfold allowed, ALLOWED_CHARS.
  simpl in *. tauto.
Qed.

Lemma int_of_char_nonneg (ch : ascii) : isdigit ch = true -> 0 <= int_of_char ch <= 9.
Proof.
  unfold isdigit, int_of_char. intros H.
  apply andb_true_iff in H. destruct H as [H1 H2].
  apply Nat.leb_le in H1. apply Nat.leb_le in H2. lia.
Qed.

Lemma nth_error_middle (pre suf : expr) (ch : ascii) :
  nth_error (pre ++ ch :: suf) (List.length pre) = Some ch.
Proof.
  induction pre as [| x pre IH]; simpl; [reflexivity | exact IH].
Qed.

Lemma nth_error_after (pre suf : expr) (k : nat) :
  nth_error (pre ++ suf) (List.length pre + k) = nth_error suf k.
Proof.
  induction pre as [| x pre IH]; simpl; [reflexivity | exact IH].
Qed.

Lemma nth_error_end (s : expr) : nth_error s (List.length s) = None.
Proof. apply nth_error_None. lia. Qed.

(** ** _read_number *)

(** Each iteration of the inner loop moves the index one character to the
    right, and the loop stops at the end of the expression at the latest. *)
Lemma _read_number_loop_bounds (fuel : nat) (expression : expr) :
  forall num i num' i',
    _read_number_loop fuel expression num i = Some (num', i') ->
    (i <= i')%nat /\ (i' <= Nat.max i (List.length expression))%nat /\
    (char_at_is isdigit expression i = true -> (i < i')%nat).
Proof.
  induction fuel as [| fuel IH]; intros num i num' i' H; simpl in H;
    unfold char_at_is;
    destruct (nth_error expression i) as [ch |] eqn:Hnth;
    try destruct (isdigit ch) eqn:Hd;
    try discriminate H;
    try (injection H as <- <-; repeat split; try lia; discriminate).
  apply IH in H. destruct H as [H1 [H2 _]].
  assert (i < List.length expression)%nat
    by (apply nth_error_Some; congruence).
  repeat split; lia.
Qed.

Lemma _read_number_loop_total (expression : expr) :
  forall fuel num i,
    (List.length expression - i <= fuel)%nat ->
    exists num' i', _read_number_loop fuel expression num i = Some (num', i').
Proof.
  induction fuel as [| fuel IH]; intros num i Hf; simpl;
    destruct (nth_error expression i) as [ch |] eqn:Hnth;
    try (now eauto);
    destruct (isdigit ch); try (now eauto);
    assert (i < List.length expression)%nat
      by (apply nth_error_Some; congruence).
  - lia.
  - apply IH. lia.
Qed.

Lemma _read_number_total (expression : expr) (start_idx : nat) :
  exists number i', _read_number expression start_idx = Some (number, i').
Proof. apply _read_number_loop_total. lia. Qed.

(** More fuel does not change what the loop returns. *)
Lemma _read_number_loop_mono (expression : expr) :
  forall fuel fuel' num i r,
    _read_number_loop fuel expression num i = Some r ->
    (fuel <= fuel')%nat ->
    _read_number_loop fuel' expression num i = Some r.
Proof.
  induction fuel as [| fuel IH]; intros fuel' num i r H Hle;
    destruct fuel' as [| fuel']; simpl in *; try lia; try assumption;
    destruct (nth_error expression i) as [ch |]; try assumption;
    destruct (isdigit ch); try assumption; try discriminate H.
  apply IH with (fuel' := fuel') in H; [assumption | lia].
Qed.

(** On a maximal run of digits the loop returns its decimal value and the
    index after it. *)
Lemma _read_number_loop_run (digits : list ascii) :
  forall fuel pre suf num,
    forallb isdigit digits = true ->
    char_at_is isdigit suf 0 = false ->
    (List.length digits <= fuel)%nat ->
    _read_number_loop fuel (pre ++ digits ++ suf) num (List.length pre)
    = Some (fold_left (fun n ch => n * 10 + int_of_char ch) digits num,
            (List.length pre + List.length digits)%nat).
Proof.
  induction digits as [| d digits IH]; intros fuel pre suf num Hall Hsuf Hf.
  - simpl app. rewrite Nat.add_0_r.
    assert (Hn : nth_error (pre ++ suf) (List.length pre) = nth_error suf 0)
      by (rewrite <- (Nat.add_0_r (List.length pre)); apply nth_error_after).
    unfold char_at_is in Hsuf.
    destruct fuel; simpl; rewrite Hn; destruct (nth_error suf 0) as [ch |];
      try rewrite Hsuf; reflexivity.
  - simpl in Hall. apply andb_true_iff in Hall. destruct Hall as [Hd Hall].
    destruct fuel as [| fuel]; [simpl in Hf; lia |].
    simpl. rewrite nth_error_middle, Hd.
    replace (pre ++ d :: digits ++ suf) with ((pre ++ [d]) ++ digits ++ suf)
      by (rewrite <- app_assoc; reflexivity).
    replace (List.length pre + 1)%nat with (List.length (pre ++ [d]))
      by (rewrite length_app; reflexivity).
    rewrite IH; try assumption; [| simpl in Hf; lia].
    rewrite length_app. simpl. f_equal. f_equal. lia.
Qed.

(** ** One iteration of the main loop *)

Lemma body_total (expression : expr) (char : ascii) (st : state) :
  exists r, body expression char st = Some r.
Proof.
  unfold body.
  destruct (_read_number_total expression (pos st)) as [number [i' Hrn]].
  rewrite Hrn.
  repeat match goal with
         | |- context [if ?b then _ else _] => destruct b
         | |- context [match reduce ?s with _ => _ end] => destruct (reduce s)
         end; eauto.
Qed.

(** An iteration that does not raise moves the index to the right, and
    never past the end of the expression. *)
Lemma body_advance (expression : expr) (char : ascii) (st st' : state) :
  nth_error expression (pos st) = Some char ->
  body expression char st = Some (Continue st') ->
  (pos st < pos st' <= List.length expression)%nat.
Proof.
  intros Hnth H.
  assert (Hlt : (pos st < List.length expression)%nat)
    by (apply nth_error_Some; congruence).
  unfold body in H.
  destruct (Ascii.eqb char "-" && char_at_is isdigit expression (pos st + 1));
    [discriminate H |].
  destruct (Ascii.eqb char "."
            || isdigit char && char_at_is (Ascii.eqb ".") expression (pos st + 1));
    [discriminate H |].
  destruct (isdigit char) eqn:Hd.
  - unfold _read_number in H.
    destruct (_read_number_loop (List.length expression) expression 0 (pos st))
      as [[number i'] |] eqn:Hrn; [| discriminate H].
    injection H as <-. simpl.
    apply _read_number_loop_bounds in Hrn. destruct Hrn as [_ [Hmax Hstrict]].
    unfold char_at_is in Hstrict. rewrite Hnth in Hstrict.
    specialize (Hstrict Hd). lia.
  - destruct (char_in char ["m"; "M"]); [injection H as <-; simpl; lia |].
    destruct (Ascii.eqb char ")").
    + destruct (reduce (stack st)); [| discriminate H].
      injection H as <-. simpl. lia.
    + destruct (char_in char ["("; ","]); [| discriminate H].
      injection H as <-. simpl. lia.
Qed.

(** ** The main loop *)

Lemma scan_total (expression : expr) :
  forall fuel st,
    (List.length expression - pos st <= fuel)%nat ->
    exists r, scan fuel expression st = Some r.
Proof.
  induction fuel as [| fuel IH]; intros st Hf; simpl;
    destruct (nth_error expression (pos st)) as [char |] eqn:Hnth;
    try (now eauto);
    assert (Hlt : (pos st < List.length expression)%nat)
      by (apply nth_error_Some; congruence).
  - lia.
  - destruct (body_total expression char st) as [[st' | e] Hb]; rewrite Hb.
    + apply IH. apply body_advance in Hb; [lia | assumption].
    + eauto.
Qed.

Lemma scan_mono (expression : expr) :
  forall fuel fuel' st r,
    scan fuel expression st = Some r ->
    (fuel <= fuel')%nat ->
    scan fuel' expression st = Some r.
Proof.
  induction fuel as [| fuel IH]; intros fuel' st r H Hle;
    destruct fuel' as [| fuel']; simpl in *; try lia; try assumption;
    destruct (nth_error expression (pos st)) as [char |]; try assumption;
    try discriminate H.
  destruct (body expression char st) as [[st' | e] |]; try assumption.
  apply IH with (fuel' := fuel') in H; [assumption | lia].
Qed.

(** The result of the loop does not depend on the fuel, once there is
    enough of it. *)
Lemma scan_determined (expression : expr) (fuel fuel' : nat) (st : state)
      (r : result Stack.t) :
  scan fuel expression st = Some r ->
  (List.length expression - pos st <= fuel')%nat ->
  scan fuel' expression st = Some r.
Proof.
  intros H Hf.
  destruct (scan_total expression fuel' st Hf) as [r' Hr'].
  rewrite Hr'. f_equal.
  apply scan_mono with (fuel' := Nat.max fuel fuel') in H; [| lia].
  apply scan_mono with (fuel' := Nat.max fuel fuel') in Hr'; [| lia].
  congruence.
Qed.

Lemma reaches_cons (expression : expr) (st st' : state) (char : ascii) :
  nth_error expression (pos st) = Some char ->
  body expression char st = Some (Continue st') ->
  forall n st'', reaches expression n st' st'' ->
                 reaches expression (S n) st st''.
Proof.
  intros Hnth Hb n st'' Hr.
  induction Hr as [st' | n st' st1 st2 c Hr IH Hn1 Hb1].
  - eapply reaches_step; [apply reaches_refl | eassumption | assumption].
  - eapply reaches_step; [apply IH; assumption | eassumption | assumption].
Qed.

(** The loop, read from a state that the scan reaches. *)
Lemma reaches_scan (expression : expr) (n : nat) (st st' : state) :
  reaches expression n st st' ->
  forall fuel r, scan fuel expression st' = Some r ->
                 scan (n + fuel) expression st = Some r.
Proof.
  induction 1 as [st | n st st1 st2 c Hr IH Hn1 Hb1]; intros fuel r Hs.
  - exact Hs.
  - replace (S n + fuel)%nat with (n + S fuel)%nat by lia.
    apply IH. simpl. rewrite Hn1, Hb1. exact Hs.
Qed.

(** A loop that exits normally went through a chain of iterations to a
    state whose index is past the end. *)
Lemma scan_ok_reaches (expression : expr) :
  forall fuel st s,
    scan fuel expression st = Some (Ok s) ->
    exists n st', reaches expression n st st' /\
                  (n <= fuel)%nat /\
                  nth_error expression (pos st') = None /\
                  stack st' = s.
Proof.
  induction fuel as [| fuel IH]; intros st s H; simpl in H;
    destruct (nth_error expression (pos st)) as [char |] eqn:Hnth;
    try discriminate H;
    try (injection H as <-; exists 0%nat, st;
         repeat split; [apply reaches_refl | lia | assumption]).
  destruct (body expression char st) as [[st1 | e] |] eqn:Hb;
    try discriminate H.
  apply IH in H. destruct H as [n [st' [Hr [Hle [Hend Hstk]]]]].
  exists (S n), st'. repeat split; try assumption; [| lia].
  eapply reaches_cons; eassumption.
Qed.

(** A loop that raises went through a chain of iterations to a state
    whose iteration raises. *)
Lemma scan_err_reaches (expression : expr) :
  forall fuel st e,
    scan fuel expression st = Some (Err e) ->
    exists n st' char, reaches expression n st st' /\
                       nth_error expression (pos st') = Some char /\
                       body expression char st' = Some (Raise e).
Proof.
  induction fuel as [| fuel IH]; intros st e H; simpl in H;
    destruct (nth_error expression (pos st)) as [char |] eqn:Hnth;
    try discriminate H.
  destruct (body expression char st) as [[st1 | e1] |] eqn:Hb;
    try discriminate H.
  - apply IH in H. destruct H as [n [st' [c [Hr [Hn Hraise]]]]].
    exists (S n), st', c. repeat split; try assumption.
    eapply reaches_cons; eassumption.
  - injection H as <-. exists 0%nat, st, char.
    repeat split; [apply reaches_refl | assumption | assumption].
Qed.

(** After [n] iterations the index has moved at least [n] characters and
    is still within the expression. *)
Lemma reaches_pos (expression : expr) (n : nat) (st st' : state) :
  reaches expression n st st' ->
  (pos st + n <= pos st')%nat /\
  (pos st' <= Nat.max (pos st) (List.length expression))%nat.
Proof.
  induction 1 as [st | n st st1 st2 c Hr IH Hn1 Hb1].
  - lia.
  - apply body_advance in Hb1; [lia | assumption].
Qed.

(** ** The validator *)

Lemma check_chars_ok (expression : expr) :
  Forall allowed expression -> check_chars expression = Ok tt.
Proof.
  induction 1 as [| ch rest Hch _ IH]; simpl; [reflexivity |].
  apply char_in_In in Hch. rewrite Hch. exact IH.
Qed.

Lemma check_chars_first (pre suf : expr) (ch : ascii) :
  Forall allowed pre -> ~ allowed ch ->
  check_chars (pre ++ ch :: suf) = Err (InvalidCharacter ch).
Proof.
  intros Hpre Hch. induction Hpre as [| x pre Hx _ IH]; simpl.
  - apply char_in_false in Hch. now rewrite Hch.
  - apply char_in_In in Hx. rewrite Hx. exact IH.
Qed.

Lemma check_chars_allowed (expression : expr) :
  check_chars expression = Ok tt -> Forall allowed expression.
Proof.
  induction expression as [| ch rest IH]; simpl; intros H; [constructor |].
  destruct (char_in ch ALLOWED_CHARS) eqn:Hch; [| discriminate H].
  constructor; [now apply char_in_In | now apply IH].
Qed.

Lemma check_balance_ok (expression : expr) :
  forall balance,
    (forall k, 0 <= balance + depth (firstn k expression)) ->
    check_balance expression balance = Ok (balance + depth expression).
Proof.
  induction expression as [| ch rest IH]; intros balance Hk; simpl.
  - f_equal. lia.
  - assert (H1 := Hk 1%nat). simpl in H1.
    assert (Hrest : forall d,
               (forall k, 0 <= balance + depth (firstn (S k) (ch :: rest))) ->
               (if Ascii.eqb ch "(" then 1 else if Ascii.eqb ch ")" then -1 else 0) = d ->
               forall k, 0 <= (balance + d) + depth (firstn k rest)).
    { intros d Hall Hd k. specialize (Hall k). simpl in Hall. lia. }
    specialize (Hrest _ (fun k => Hk (S k)) eq_refl).
    destruct (Ascii.eqb ch "(").
    + rewrite IH by exact Hrest. f_equal. lia.
    + destruct (Ascii.eqb ch ")").
      * destruct (balance - 1 <? 0) eqn:Hneg; [apply Z.ltb_lt in Hneg; lia |].
        rewrite IH; [f_equal; lia |].
        intros k. specialize (Hrest k). lia.
      * rewrite IH; [f_equal; lia |].
        intros k. specialize (Hrest k). lia.
Qed.

Lemma check_balance_negative (expression : expr) :
  forall balance,
    0 <= balance ->
    (exists k, balance + depth (firstn k expression) < 0) ->
    check_balance expression balance = Err UnmatchedClosingParen.
Proof.
  induction expression as [| ch rest IH]; intros balance Hb [k Hk].
  - rewrite firstn_nil in Hk. simpl in Hk. lia.
  - destruct k as [| k]; [simpl in Hk; lia |].
    simpl in Hk. simpl.
    destruct (Ascii.eqb ch "(").
    + apply IH; [lia | exists k; lia].
    + destruct (Ascii.eqb ch ")").
      * destruct (balance - 1 <? 0) eqn:Hneg; [reflexivity |].
        apply Z.ltb_ge in Hneg. apply IH; [lia | exists k; lia].
      * apply IH; [lia | exists k; lia].
Qed.

Lemma check_balance_error (expression : expr) :
  forall balance e,
    check_balance expression balance = Err e -> e = UnmatchedClosingParen.
Proof.
  induction expression as [| ch rest IH]; intros balance e H; simpl in H;
    [discriminate H |].
  destruct (Ascii.eqb ch "("); [now apply IH in H |].
  destruct (Ascii.eqb ch ")"); [| now apply IH in H].
  destruct (balance - 1 <? 0); [congruence | now apply IH in H].
Qed.

(** What a validated expression is known to satisfy. *)
Lemma _validate_expression_ok (expression : expr) :
  _validate_expression expression = Ok tt ->
  Forall allowed expression /\ (In "m" expression \/ In "M" expression).
Proof.
  unfold _validate_expression. destruct expression as [| c0 rest]; [discriminate |].
  set (expression := c0 :: rest).
  destruct (check_chars expression) as [[] | e] eqn:Hc; [| discriminate].
  destruct (check_balance expression 0) as [balance | e]; [| discriminate].
  destruct (negb (balance =? 0)); [discriminate |].
  destruct (char_in "m" expression) eqn:Hm; cbn [negb andb].
  - intros _. split; [now apply check_chars_allowed | left; now apply char_in_In].
  - destruct (char_in "M" expression) eqn:HM; cbn [negb andb]; [| discriminate].
    intros _. split; [now apply check_chars_allowed | right; now apply char_in_In].
Qed.

(** The errors of the validator are those of its four rules. *)
Lemma _validate_expression_errors (expression : expr) (e : error) :
  _validate_expression expression = Err e ->
  e = EmptyExpression \/ (exists ch, e = InvalidCharacter ch) \/
  e = UnmatchedClosingParen \/ e = UnbalancedParens \/ e = NoOperator.
Proof.
  unfold _validate_expression. destruct expression as [| c0 rest].
  - intros H. injection H as <-. tauto.
  - set (expression := c0 :: rest).
    destruct (check_chars expression) as [[] | e1] eqn:Hc.
    + destruct (check_balance expression 0) as [balance | e2] eqn:Hb.
      * destruct (negb (balance =? 0)); [intros H; injection H as <-; tauto |].
        destruct (negb (char_in "m" expression) && negb (char_in "M" expression));
          [intros H; injection H as <-; tauto | discriminate].
      * intros H. injection H as <-. apply check_balance_error in Hb. tauto.
    + intros H. injection H as <-. right. left.
      clear -Hc. induction expression as [| ch l IH]; simpl in Hc; [discriminate |].
      destruct (negb (char_in ch ALLOWED_CHARS)); [| now apply IH].
      injection Hc as <-. eauto.
Qed.

(** ** Chains of iterations *)

Lemma reaches_trans (expression : expr) (n m : nat) (st1 st2 st3 : state) :
  reaches expression n st1 st2 ->
  reaches expression m st2 st3 ->
  reaches expression (m + n) st1 st3.
Proof.
  intros H12 H23. induction H23 as [st2 | m st2 st st3 c H23 IH Hn Hb].
  - exact H12.
  - simpl. eapply reaches_step; [apply IH; assumption | eassumption | assumption].
Qed.

Lemma reaches_one (expression : expr) (st st' : state) (char : ascii) :
  nth_error expression (pos st) = Some char ->
  body expression char st = Some (Continue st') ->
  reaches expression 1 st st'.
Proof.
  intros Hn Hb. eapply reaches_step; [apply reaches_refl | eassumption | assumption].
Qed.

Lemma isdigit_not_dot (ch : ascii) : isdigit ch = true -> Ascii.eqb "." ch = false.
Proof.
  intros H. apply isdigit_cases in H. simpl in H.
  repeat (destruct H as [<- | H]; [reflexivity |]). contradiction.
Qed.

(** The iteration at an operator letter pushes it. *)
Lemma body_operator (expression : expr) (o : op) (st : state) :
  body expression (op_char o) st
  = Some (Continue (mkState (pos st + 1) (PyStr (op_char o) :: stack st))).
Proof. destruct o; reflexivity. Qed.

(** The iterations at ["("] and [","] leave the stack as it is. *)
Lemma body_open (expression : expr) (st : state) :
  body expression "(" st = Some (Continue (mkState (pos st + 1) (stack st))).
Proof. reflexivity. Qed.

Lemma body_comma (expression : expr) (st : state) :
  body expression "," st = Some (Continue (mkState (pos st + 1) (stack st))).
Proof. reflexivity. Qed.

(** The iteration at [")"] is the reduction of the stack. *)
Lemma body_close (expression : expr) (st : state) :
  body expression ")" st
  = match reduce (stack st) with
    | Err e => Some (Raise e)
    | Ok s' => Some (Continue (mkState (pos st + 1) s'))
    end.
Proof. reflexivity. Qed.

Lemma reduce_apply (o : op) (a b : Z) (s : Stack.t) :
  reduce (PyInt b :: PyInt a :: PyStr (op_char o) :: s)
  = Ok (PyInt (apply_op o a b) :: s).
Proof. destruct o; reflexivity. Qed.

(** The iteration at the first digit of a literal that is followed by
    neither a digit nor a point pushes the value of the literal and moves
    the index behind it. *)
Lemma body_literal (d : ascii) (digits pre suf : expr) (s : Stack.t) :
  forallb isdigit (d :: digits) = true ->
  char_at_is isdigit suf 0 = false ->
  char_at_is (Ascii.eqb ".") suf 0 = false ->
  body (pre ++ (d :: digits) ++ suf) d (mkState (List.length pre) s)
  = Some (Continue (mkState (List.length pre + List.length (d :: digits))
                            (PyInt (decimal (d :: digits)) :: s))).
Proof.
  intros Hall Hsd Hsp.
  assert (Hd : isdigit d = true)
    by (simpl in Hall; apply andb_true_iff in Hall; tauto).
  assert (Hnext : char_at_is (Ascii.eqb ".") (pre ++ (d :: digits) ++ suf)
                             (List.length pre + 1) = false).
  { unfold char_at_is. rewrite nth_error_after. simpl.
    destruct digits as [| d2 digits]; simpl.
    - exact Hsp.
    - simpl in Hall. apply isdigit_not_dot.
      apply andb_true_iff in Hall. destruct Hall as [_ Hall].
      apply andb_true_iff in Hall. tauto. }
  unfold body. cbn [pos stack].
  rewrite Hnext, Hd.
  assert (Hminus : Ascii.eqb d "-" = false).
  { apply isdigit_cases in Hd. simpl in Hd.
    repeat (destruct Hd as [<- | Hd]; [reflexivity |]). contradiction. }
  assert (Hpoint : Ascii.eqb d "." = false)
    by (rewrite Ascii.eqb_sym; now apply isdigit_not_dot).
  rewrite Hminus, Hpoint. cbn [andb orb].
  unfold _read_number.
  rewrite _read_number_loop_run; try assumption; [reflexivity |].
  rewrite !length_app. lia.
Qed.

(** The scan of the string of a well-formed tree, wherever it stands in
    the expression, pushes the fold of the tree. *)
Lemma reaches_render (t : tree) :
  well_formed t = true ->
  forall expression pre suf s,
    expression = pre ++ render t ++ suf ->
    char_at_is isdigit suf 0 = false ->
    char_at_is (Ascii.eqb ".") suf 0 = false ->
    exists n,
      reaches expression n
              (mkState (List.length pre) s)
              (mkState (List.length pre + List.length (render t))
                       (PyInt (fold_tree t) :: s)).
Proof.
  induction t as [digits | o l IHl r IHr]; intros Hwf expression pre suf s -> Hsd Hsp.
  - simpl in Hwf. apply andb_true_iff in Hwf. destruct Hwf as [Hne Hall].
    destruct digits as [| d digits]; [discriminate Hne |].
    exists 1%nat. cbn [render fold_tree].
    apply reaches_one with (char := d).
    + cbn [pos]. simpl app. apply nth_error_middle.
    + now apply body_literal.
  - simpl in Hwf. apply andb_true_iff in Hwf. destruct Hwf as [Hl Hr].
    cbn [render fold_tree].
    set (expression := pre ++ (op_char o :: "(" :: render l ++ "," :: render r ++ [")"]) ++ suf).
    assert (E1 : expression
                 = (pre ++ [op_char o; "("]) ++ render l ++ ("," :: render r ++ ")" :: suf)).
    { unfold expression. repeat (rewrite <- app_assoc; simpl). reflexivity. }
    assert (E2 : expression
                 = (pre ++ op_char o :: "(" :: render l ++ [","]) ++ render r ++ (")" :: suf)).
    { unfold expression. repeat (rewrite <- app_assoc; simpl). reflexivity. }
    assert (E0 : expression = pre ++ op_char o :: ("(" :: render l ++ "," :: render r ++ ")" :: suf)).
    { unfold expression. simpl. repeat (rewrite <- app_assoc; simpl). reflexivity. }
    assert (E0' : expression = (pre ++ [op_char o]) ++ "(" :: (render l ++ "," :: render r ++ ")" :: suf)).
    { unfold expression. repeat (rewrite <- app_assoc; simpl). reflexivity. }
    assert (E1' : expression
                 = (pre ++ op_char o :: "(" :: render l) ++ "," :: (render r ++ ")" :: suf)).
    { unfold expression. repeat (rewrite <- app_assoc; simpl). reflexivity. }
    assert (E2' : expression
                 = (pre ++ op_char o :: "(" :: render l ++ "," :: render r) ++ ")" :: suf).
    { unfold expression. repeat (rewrite <- app_assoc; simpl). reflexivity. }
    destruct (IHl Hl expression _ _ (PyStr (op_char o) :: s) E1 eq_refl eq_refl)
      as [nl Hreach_l].
    destruct (IHr Hr expression _ _ (PyInt (fold_tree l) :: PyStr (op_char o) :: s)
                  E2 eq_refl eq_refl)
      as [nr Hreach_r].
    clearbody expression.
    (* the operator letter *)
    assert (S1 : reaches expression 1 (mkState (List.length pre) s)
                         (mkState (List.length pre + 1) (PyStr (op_char o) :: s))).
    { apply reaches_one with (char := op_char o).
      - cbn [pos]. rewrite E0. apply nth_error_middle.
      - apply body_operator. }
    (* the opening parenthesis *)
    assert (S2 : reaches expression 1
                         (mkState (List.length pre + 1) (PyStr (op_char o) :: s))
                         (mkState (List.length (pre ++ [op_char o; "("]))
                                  (PyStr (op_char o) :: s))).
    { apply reaches_one with (char := "(").
      - cbn [pos]. rewrite E0'.
        replace (List.length pre + 1)%nat with (List.length (pre ++ [op_char o]))
          by (rewrite length_app; reflexivity).
        apply nth_error_middle.
      - rewrite body_open. cbn [pos stack]. rewrite length_app. simpl.
        do 3 f_equal. lia. }
    (* the comma *)
    assert (S3 : reaches expression 1
                         (mkState (List.length (pre ++ [op_char o; "("])
                                   + List.length (render l))
                                  (PyInt (fold_tree l) :: PyStr (op_char o) :: s))
                         (mkState (List.length (pre ++ op_char o :: "(" :: render l ++ [","]))
                                  (PyInt (fold_tree l) :: PyStr (op_char o) :: s))).
    { apply reaches_one with (char := ",").
      - cbn [pos]. rewrite E1' at 1.
        replace (List.length (pre ++ [op_char o; "("]) + List.length (render l))%nat
          with (List.length (pre ++ op_char o :: "(" :: render l))
          by (rewrite !length_app; simpl; lia).
        apply nth_error_middle.
      - rewrite body_comma. cbn [pos stack]. do 3 f_equal.
        rewrite !length_app. simpl. rewrite !length_app. simpl. lia. }
    (* the closing parenthesis *)
    assert (S4 : reaches expression 1
                         (mkState (List.length (pre ++ op_char o :: "(" :: render l ++ [","])
                                   + List.length (render r))
                                  (PyInt (fold_tree r) :: PyInt (fold_tree l)
                                         :: PyStr (op_char o) :: s))
                         (mkState (List.length pre
                                   + List.length (op_char o :: "(" :: render l
                                                          ++ "," :: render r ++ [")"]))
                                  (PyInt (apply_op o (fold_tree l) (fold_tree r)) :: s))).
    { apply reaches_one with (char := ")").
      - cbn [pos]. rewrite E2' at 1.
        replace (List.length (pre ++ op_char o :: "(" :: render l ++ [","])
                 + List.length (render r))%nat
          with (List.length (pre ++ op_char o :: "(" :: render l ++ "," :: render r))
          by (rewrite !length_app; simpl; rewrite !length_app; simpl; lia).
        apply nth_error_middle.
      - rewrite body_close. cbn [pos stack]. rewrite reduce_apply.
        do 3 f_equal.
        rewrite !length_app. simpl. rewrite !length_app. simpl.
        rewrite !length_app. simpl. lia. }
    exists (1 + (nr + (1 + (nl + (1 + 1)))))%nat.
    eapply reaches_trans; [| exact S4].
    eapply reaches_trans; [| exact Hreach_r].
    eapply reaches_trans; [| exact S3].
    eapply reaches_trans; [| exact Hreach_l].
    eapply reaches_trans; [exact S1 | exact S2].
Qed.

(** ** The validator on the strings of the grammar *)

Lemma op_char_allowed (o : op) : allowed (op_char o).
Proof. destruct o; unfold allowed, ALLOWED_CHARS; simpl; tauto. Qed.

Lemma render_allowed (t : tree) :
  well_formed t = true -> Forall allowed (render t).
Proof.
  induction t as [digits | o l IHl r IHr]; simpl; intros Hwf;
    apply andb_true_iff in Hwf; destruct Hwf as [H1 H2].
  - apply Forall_forall. intros ch Hin.
    apply isdigit_allowed. revert ch Hin. now apply forallb_forall.
  - constructor; [apply op_char_allowed |].
    constructor; [unfold allowed, ALLOWED_CHARS; simpl; tauto |].
    apply Forall_app. split; [now apply IHl |].
    constructor; [unfold allowed, ALLOWED_CHARS; simpl; tauto |].
    apply Forall_app. split; [now apply IHr |].
    constructor; [unfold allowed, ALLOWED_CHARS; simpl; tauto | constructor].
Qed.

Lemma check_balance_digits (digits rest : expr) (balance : Z) :
  forallb isdigit digits = true ->
  check_balance (digits ++ rest) balance = check_balance rest balance.
Proof.
  induction digits as [| d digits IH]; simpl; intros Hall; [reflexivity |].
  apply andb_true_iff in Hall. destruct Hall as [Hd Hall].
  apply isdigit_cases in Hd. simpl in Hd.
  repeat (destruct Hd as [<- | Hd]; [simpl; now apply IH |]). contradiction.
Qed.

(** The balance loop runs through the string of a tree and comes out with
    the balance it went in with. *)
Lemma check_balance_render (t : tree) :
  well_formed t = true ->
  forall rest balance,
    0 <= balance ->
    check_balance (render t ++ rest) balance = check_balance rest balance.
Proof.
  induction t as [digits | o l IHl r IHr]; simpl; intros Hwf rest balance Hb;
    apply andb_true_iff in Hwf; destruct Hwf as [H1 H2].
  - now apply check_balance_digits.
  - assert (Hop : Ascii.eqb (op_char o) "(" = false /\ Ascii.eqb (op_char o) ")" = false)
      by (destruct o; split; reflexivity).
    destruct Hop as [-> ->].
    rewrite <- app_assoc, IHl by (assumption || lia).
    simpl. rewrite <- app_assoc, IHr by (assumption || lia).
    simpl.
    destruct (balance + 1 - 1 <? 0) eqn:Hneg; [apply Z.ltb_lt in Hneg; lia |].
    f_equal. lia.
Qed.

Lemma _validate_expression_pass (expression : expr) :
  expression <> [] ->
  Forall allowed expression ->
  check_balance expression 0 = Ok 0 ->
  In "m" expression \/ In "M" expression ->
  _validate_expression expression = Ok tt.
Proof.
  intros Hne Hall Hbal Hop. unfold _validate_expression.
  destruct expression as [| c0 rest]; [congruence |].
  rewrite (check_chars_ok _ Hall), Hbal. cbn [Z.eqb negb].
  destruct Hop as [Hop | Hop]; apply char_in_In in Hop; rewrite Hop;
    cbn [negb andb]; [reflexivity | now rewrite andb_false_r].
Qed.

Lemma _validate_expression_render (o : op) (l r : tree) :
  well_formed (Node o l r) = true ->
  _validate_expression (render (Node o l r)) = Ok tt.
Proof.
  intros Hwf. apply _validate_expression_pass.
  - discriminate.
  - now apply render_allowed.
  - rewrite <- (app_nil_r (render (Node o l r))).
    rewrite check_balance_render by (assumption || lia). reflexivity.
  - destruct o; simpl; tauto.
Qed.

(** ** What an iteration can raise *)

Lemma reduce_errors (s : Stack.t) (e : error) :
  reduce s = Err e ->
  e = InsufficientOperands \/ e = NonIntegerOperand \/ e = MalformedOperatorPlacement.
Proof.
  unfold reduce.
  destruct s as [| b [| a [| operator s]]]; simpl;
    try (intros H; injection H as <-; tauto).
  destruct a, b, operator; simpl;
    repeat match goal with
           | |- context [if ?c then _ else _] => destruct c
           end;
    intros H; try discriminate H; injection H as <-; tauto.
Qed.

Lemma reduce_nonempty (s s' : Stack.t) : reduce s = Ok s' -> s' <> [].
Proof.
  unfold reduce.
  destruct s as [| b [| a [| operator s]]]; simpl; try discriminate.
  destruct a, b, operator; simpl;
    repeat match goal with
           | |- context [if ?c then _ else _] => destruct c
           end;
    intros H; try discriminate H; injection H as <-; discriminate.
Qed.

Lemma finish_cases (s : Stack.t) :
  match s with
  | [] => finish s = Err NoResult
  | [v] => finish s = Ok v
  | _ :: _ :: _ => finish s = Err ExtraArguments
  end.
Proof. destruct s as [| v [| w s]]; reflexivity. Qed.

(** The catch-all branch is taken at an allowed character only if it is a
    minus sign that no digit follows. *)
Lemma body_unexpected (expression : expr) (char ch : ascii) (st : state) :
  allowed char ->
  body expression char st = Some (Raise (UnexpectedCharacter ch)) ->
  ch = "-" /\ char = "-" /\ char_at_is isdigit expression (pos st + 1) = false.
Proof.
  intros Hallowed H. unfold body in H.
  destruct (Ascii.eqb char "-" && char_at_is isdigit expression (pos st + 1)) eqn:E1;
    [discriminate H |].
  destruct (Ascii.eqb char "."
            || isdigit char && char_at_is (Ascii.eqb ".") expression (pos st + 1)) eqn:E2;
    [discriminate H |].
  destruct (isdigit char) eqn:Hd;
    [destruct (_read_number expression (pos st)) as [[number i'] |]; discriminate H |].
  destruct (char_in char ["m"; "M"]) eqn:Hop; [discriminate H |].
  destruct (Ascii.eqb char ")") eqn:Hclose.
  { destruct (reduce (stack st)) eqn:Hr; [discriminate H |].
    injection H as ->. apply reduce_errors in Hr.
    destruct Hr as [Hr | [Hr | Hr]]; discriminate Hr. }
  destruct (char_in char ["("; ","]) eqn:Hsep; [discriminate H |].
  injection H as <-.
  unfold allowed, ALLOWED_CHARS in Hallowed. simpl in Hallowed.
  repeat (destruct Hallowed as [<- | Hallowed];
          [first [discriminate Hd | discriminate Hop | discriminate Hclose
                 | discriminate Hsep | discriminate E2 | idtac] |]);
    [| contradiction].
  simpl in E1. tauto.
Qed.

Lemma body_not_NoResult (expression : expr) (char : ascii) (st : state) :
  body expression char st <> Some (Raise NoResult).
Proof.
  unfold body.
  destruct (_read_number expression (pos st)) as [[number i'] |];
    destruct (reduce (stack st)) eqn:Hr;
    repeat match goal with
           | |- context [if ?c then _ else _] => destruct c
           end;
    try discriminate;
    intros H; injection H as ->; apply reduce_errors in Hr;
    destruct Hr as [Hr | [Hr | Hr]]; discriminate Hr.
Qed.

(** ** No operator letter is skipped, and the stack is never emptied *)

Lemma body_operators_kept (expression : expr) (char : ascii) (st st' : state) :
  nth_error expression (pos st) = Some char ->
  body expression char st = Some (Continue st') ->
  operators_kept expression st ->
  operators_kept expression st'.
Proof.
  intros Hnth H Hinv. unfold body in H.
  destruct (Ascii.eqb char "-" && char_at_is isdigit expression (pos st + 1));
    [discriminate H |].
  destruct (Ascii.eqb char "."
            || isdigit char && char_at_is (Ascii.eqb ".") expression (pos st + 1));
    [discriminate H |].
  destruct (isdigit char).
  { destruct (_read_number expression (pos st)) as [[number i'] |];
      [| discriminate H].
    injection H as <-. left. discriminate. }
  destruct (char_in char ["m"; "M"]); [injection H as <-; left; discriminate |].
  destruct (Ascii.eqb char ")").
  { destruct (reduce (stack st)) as [s' |] eqn:Hr; [| discriminate H].
    injection H as <-. left. simpl. now apply reduce_nonempty in Hr. }
  destruct (char_in char ["("; ","]) eqn:Hsep; [| discriminate H].
  injection H as <-. destruct Hinv as [Hne | Hbefore]; [left; exact Hne |].
  right. cbn [pos]. intros j ch Hj Hch.
  destruct (Nat.eq_dec j (pos st)) as [-> | Hneq].
  - rewrite Hnth in Hch. injection Hch as <-.
    apply char_in_In in Hsep. simpl in Hsep.
    destruct Hsep as [<- | [<- | []]]; split; discriminate.
  - apply (Hbefore j); [lia | assumption].
Qed.

Lemma reaches_operators_kept (expression : expr) (n : nat) (st st' : state) :
  reaches expression n st st' ->
  operators_kept expression st ->
  operators_kept expression st'.
Proof.
  induction 1 as [st | n st st1 st2 c Hr IH Hn1 Hb1]; intros Hinv;
    [assumption |].
  eapply body_operators_kept; [eassumption | eassumption | now apply IH].
Qed.

(** The exit of the loop leaves a stack that is not empty, when the
    expression has an operator letter. *)
Lemma scan_nonempty (expression : expr) (fuel : nat) (s0 s : Stack.t) :
  In "m" expression \/ In "M" expression ->
  scan fuel expression (mkState 0 s0) = Some (Ok s) ->
  s <> [].
Proof.
  intros Hop Hscan. apply scan_ok_reaches in Hscan.
  destruct Hscan as [n [st' [Hr [_ [Hend <-]]]]].
  apply reaches_operators_kept in Hr; [| right; cbn [pos]; intros j ch Hj; lia].
  destruct Hr as [Hne | Hbefore]; [exact Hne |].
  exfalso. apply nth_error_None in Hend.
  assert (Hno : forall ch, In ch expression -> ch <> "m" /\ ch <> "M").
  { intros ch Hin. apply In_nth_error in Hin. destruct Hin as [j Hj].
    apply (Hbefore j); [| assumption].
    assert (j < List.length expression)%nat by (apply nth_error_Some; congruence).
    lia. }
  destruct Hop as [Hop | Hop]; apply Hno in Hop; tauto.
Qed.

(** ** The cells of the stack *)

Lemma _read_number_loop_nonneg (expression : expr) :
  forall fuel num i num' i',
    0 <= num ->
    _read_number_loop fuel expression num i = Some (num', i') ->
    0 <= num'.
Proof.
  induction fuel as [| fuel IH]; intros num i num' i' Hnum H; simpl in H;
    destruct (nth_error expression i) as [ch |];
    try destruct (isdigit ch) eqn:Hd;
    try discriminate H;
    try (injection H as <- <-; assumption).
  apply IH in H; [assumption |].
  apply int_of_char_nonneg in Hd. lia.
Qed.

Lemma reduce_cells (s s' : Stack.t) :
  Forall cell_ok s -> reduce s = Ok s' -> Forall cell_ok s'.
Proof.
  unfold reduce.
  destruct s as [| b [| a [| operator s]]]; simpl; try discriminate.
  intros Hs. inversion_clear Hs as [| ? ? Hb Hs1].
  inversion_clear Hs1 as [| ? ? Ha Hs2]. inversion_clear Hs2 as [| ? ? _ Hs3].
  destruct a, b, operator; simpl in *;
    repeat match goal with
           | |- context [if ?c then _ else _] => destruct c
           end;
    intros H; try discriminate H; injection H as <-;
    constructor; try assumption; simpl; lia.
Qed.

Lemma body_cells (expression : expr) (char : ascii) (st st' : state) :
  body expression char st = Some (Continue st') ->
  Forall cell_ok (stack st) ->
  Forall cell_ok (stack st').
Proof.
  intros H Hinv. unfold body in H.
  destruct (Ascii.eqb char "-" && char_at_is isdigit expression (pos st + 1));
    [discriminate H |].
  destruct (Ascii.eqb char "."
            || isdigit char && char_at_is (Ascii.eqb ".") expression (pos st + 1));
    [discriminate H |].
  destruct (isdigit char).
  { unfold _read_number in H.
    destruct (_read_number_loop (List.length expression) expression 0 (pos st))
      as [[number i'] |] eqn:Hrn; [| discriminate H].
    injection H as <-. constructor; [| assumption].
    simpl. eapply _read_number_loop_nonneg; [| eassumption]. lia. }
  destruct (char_in char ["m"; "M"]) eqn:Hop.
  { injection H as <-. constructor; [| assumption].
    apply char_in_In in Hop. simpl in *. intuition congruence. }
  destruct (Ascii.eqb char ")").
  { destruct (reduce (stack st)) as [s' |] eqn:Hr; [| discriminate H].
    injection H as <-. eapply reduce_cells; eassumption. }
  destruct (char_in char ["("; ","]); [| discriminate H].
  injection H as <-. assumption.
Qed.

Lemma reaches_cells (expression : expr) (n : nat) (st st' : state) :
  reaches expression n st st' ->
  Forall cell_ok (stack st) ->
  Forall cell_ok (stack st').
Proof.
  induction 1 as [st | n st st1 st2 c Hr IH Hn1 Hb1]; intros Hinv;
    [assumption |].
  eapply body_cells; [eassumption | now apply IH].
Qed.

(** What [evaluate] can return: a number that is not negative or, the
    type test on the result being absent from the source, one of the two
    operator letters. *)
Lemma evaluate_returns (expression : expr) (v : pyvalue) :
  evaluate expression = Some (Ok v) -> cell_ok v.
Proof.
  unfold evaluate, evaluate_from.
  destruct (_validate_expression expression) as [[] | e]; [| discriminate].
  destruct (scan (List.length expression) expression (mkState 0 Stack.empty))
    as [[s | e] |] eqn:Hs; try discriminate.
  apply scan_ok_reaches in Hs. destruct Hs as [n [st' [Hr [_ [_ <-]]]]].
  apply reaches_cells in Hr; [| constructor].
  pose proof (finish_cases (stack st')) as Hf.
  destruct (stack st') as [| w [| w' s]]; rewrite Hf; try discriminate.
  intros H. injection H as <-. now inversion Hr.
Qed.

(** ** [evaluate] in terms of the scan *)

Lemma evaluate_scan (expression : expr) (r : result Stack.t) :
  _validate_expression expression = Ok tt ->
  scan (List.length expression) expression initial = Some r ->
  evaluate expression
  = Some (match r with
          | Err e => Err e
          | Ok s => finish s
          end).
Proof.
  intros Hv Hs. unfold evaluate, evaluate_from. rewrite Hv.
  fold initial. rewrite Hs. now destruct r.
Qed.

Lemma evaluate_reaches_exit (expression : expr) (n : nat) (st : state) :
  _validate_expression expression = Ok tt ->
  reaches expression n initial st ->
  nth_error expression (pos st) = None ->
  evaluate expression = Some (finish (stack st)).
Proof.
  intros Hv Hr Hend.
  apply (evaluate_scan expression (Ok (stack st)) Hv).
  apply scan_determined with (fuel := (n + 0)%nat); [| simpl; lia].
  apply (reaches_scan _ _ _ _ Hr). simpl. now rewrite Hend.
Qed.

Lemma evaluate_reaches_raise (expression : expr) (n : nat) (st : state)
      (char : ascii) (e : error) :
  _validate_expression expression = Ok tt ->
  reaches expression n initial st ->
  nth_error expression (pos st) = Some char ->
  body expression char st = Some (Raise e) ->
  evaluate expression = Some (Err e).
Proof.
  intros Hv Hr Hn Hb.
  apply (evaluate_scan expression (Err e) Hv).
  apply scan_determined with (fuel := (n + 1)%nat); [| simpl; lia].
  apply (reaches_scan _ _ _ _ Hr). simpl. now rewrite Hn, Hb.
Qed.

(** * The claims of the specification *)

(** C1, as amended.  For every expression string generated by the grammar
    [E := digits | Op(E,E)], [Op] one of [m] and [M], that has an operator
    at its root (so every expression of the grammar but a bare run of
    digits), [evaluate] succeeds and returns the integer obtained by
    folding the expression tree with [min] for [m] and [max] for [M]. *)
Theorem evaluate_grammar_fold (t : tree) :
  well_formed t = true ->
  is_node t = true ->
  evaluate (render t) = Some (Ok (PyInt (fold_tree t))).
Proof.
  intros Hwf Hnode. destruct t as [digits | o l r]; [discriminate Hnode |].
  destruct (reaches_render (Node o l r) Hwf (render (Node o l r)) [] [] Stack.empty)
    as [n Hr]; try reflexivity.
  { simpl. now rewrite app_nil_r. }
  change (mkState (List.length (@nil ascii)) Stack.empty) with initial in Hr.
  rewrite (evaluate_reaches_exit _ _ _ (_validate_expression_render o l r Hwf) Hr).
  - reflexivity.
  - cbn [pos List.length Nat.add]. apply nth_error_end.
Qed.

Lemma evaluate_grammar_fold_witness :
  evaluate (render (Node Max (Lit (chars "15")) (Node Min (Lit (chars "16")) (Lit (chars "8")))))
  = Some (Ok (PyInt 15)).
Proof.
  apply (evaluate_grammar_fold
           (Node Max (Lit (chars "15")) (Node Min (Lit (chars "16")) (Lit (chars "8")))));
    reflexivity.
Defined.

(** C1, as stated, fails on the bare literal [5]: it is an expression of
    the grammar, and [evaluate] fails on it with [NoOperator]. *)
Lemma evaluate_grammar_literal_fails :
  well_formed (Lit (chars "5")) = true /\
  evaluate (render (Lit (chars "5"))) = Some (Err NoOperator) /\
  evaluate (render (Lit (chars "5"))) <> Some (Ok (PyInt (fold_tree (Lit (chars "5"))))).
Proof.
  split; [reflexivity |]. split; [reflexivity |].
  vm_compute. discriminate.
Qed.

(** C2, at the input on which the code breaks it: the string [m] passes
    the validator, and [evaluate] returns the operator letter itself, a
    [str] and not the [int] that its signature and docstring promise. *)
Theorem evaluate_bare_operator :
  _validate_expression (chars "m") = Ok tt /\
  evaluate (chars "m") = Some (Ok (PyStr "m")).
Proof. split; reflexivity. Qed.

(** C3, as amended.  On a string that passes validation, [evaluate] fails
    with [UnexpectedCharacter] only at a minus sign that is not
    immediately followed by a digit; no other allowed character reaches
    the catch-all branch. *)
Theorem unexpected_character_only_minus (expression : expr) (ch : ascii) :
  _validate_expression expression = Ok tt ->
  evaluate expression = Some (Err (UnexpectedCharacter ch)) ->
  ch = "-" /\
  exists i, nth_error expression i = Some "-" /\
            char_at_is isdigit expression (i + 1) = false.
Proof.
  intros Hv He. unfold evaluate, evaluate_from in He. rewrite Hv in He.
  destruct (scan (List.length expression) expression (mkState 0 Stack.empty))
    as [[s | e] |] eqn:Hs; [| | discriminate He].
  - exfalso. injection He as He. pose proof (finish_cases s) as Hf.
    destruct s as [| v [| w s]]; rewrite Hf in He; discriminate He.
  - injection He as ->. apply scan_err_reaches in Hs.
    destruct Hs as [n [st' [char [_ [Hn Hb]]]]].
    apply _validate_expression_ok in Hv. destruct Hv as [Hall _].
    assert (Hchar : allowed char).
    { rewrite Forall_forall in Hall. apply Hall.
      eapply nth_error_In; eassumption. }
    destruct (body_unexpected _ _ _ _ Hchar Hb) as [-> [-> Hnext]].
    split; [reflexivity |]. exists (pos st'). split; assumption.
Qed.

Lemma unexpected_character_only_minus_witness :
  "-" = "-" /\
  exists i, nth_error (chars "m-") i = Some "-" /\
            char_at_is isdigit (chars "m-") (i + 1) = false.
Proof.
  apply (unexpected_character_only_minus (chars "m-") "-"); reflexivity.
Defined.

(** C3, as stated, fails on [m-]: the string passes validation and
    [evaluate] fails on it with [UnexpectedCharacter]. *)
Lemma unexpected_character_reached :
  _validate_expression (chars "m-") = Ok tt /\
  evaluate (chars "m-") = Some (Err (UnexpectedCharacter "-")).
Proof. split; reflexivity. Qed.

(** C4.  Validation reports the first violated rule, in this order: the
    empty string fails with [EmptyExpression]; otherwise the first
    character outside the allowed set fails with [InvalidCharacter] naming
    it; otherwise the depth scan fails with [UnmatchedClosingParen] if the
    depth of some prefix is negative, and with [UnbalancedParens] if the
    final depth is not zero; otherwise a string with no [m] and no [M]
    fails with [NoOperator]; otherwise validation succeeds. *)
Theorem validate_first_violation (expression : expr) :
  (expression = [] ->
   _validate_expression expression = Err EmptyExpression) /\
  (forall pre ch suf,
      expression = pre ++ ch :: suf -> Forall allowed pre -> ~ allowed ch ->
      _validate_expression expression = Err (InvalidCharacter ch)) /\
  (Forall allowed expression ->
   (exists k, depth (firstn k expression) < 0) ->
   _validate_expression expression = Err UnmatchedClosingParen) /\
  (expression <> [] -> Forall allowed expression ->
   (forall k, 0 <= depth (firstn k expression)) ->
   depth expression <> 0 ->
   _validate_expression expression = Err UnbalancedParens) /\
  (expression <> [] -> Forall allowed expression ->
   (forall k, 0 <= depth (firstn k expression)) ->
   depth expression = 0 ->
   ~ In "m" expression -> ~ In "M" expression ->
   _validate_expression expression = Err NoOperator) /\
  (expression <> [] -> Forall allowed expression ->
   (forall k, 0 <= depth (firstn k expression)) ->
   depth expression = 0 ->
   In "m" expression \/ In "M" expression ->
   _validate_expression expression = Ok tt).
Proof.
  repeat apply conj.
  - intros ->. reflexivity.
  - intros pre ch suf -> Hpre Hch. unfold _validate_expression.
    rewrite (check_chars_first pre suf ch Hpre Hch).
    destruct pre; reflexivity.
  - intros Hall [k Hk]. unfold _validate_expression.
    destruct expression as [| c0 rest];
      [rewrite firstn_nil in Hk; simpl in Hk; lia |].
    rewrite (check_chars_ok _ Hall).
    rewrite check_balance_negative; [reflexivity | lia | exists k; lia].
  - intros Hne Hall Hk Hd. unfold _validate_expression.
    destruct expression as [| c0 rest]; [congruence |].
    rewrite (check_chars_ok _ Hall).
    rewrite check_balance_ok by (intros k; specialize (Hk k); lia).
    destruct (0 + depth (c0 :: rest) =? 0) eqn:Hz;
      [apply Z.eqb_eq in Hz; lia | reflexivity].
  - intros Hne Hall Hk Hd Hm HM. unfold _validate_expression.
    destruct expression as [| c0 rest]; [congruence |].
    rewrite (check_chars_ok _ Hall).
    rewrite check_balance_ok by (intros k; specialize (Hk k); lia).
    rewrite Hd. cbn [Z.add Z.eqb negb].
    apply char_in_false in Hm. apply char_in_false in HM.
    now rewrite Hm, HM.
  - intros Hne Hall Hk Hd Hop.
    apply _validate_expression_pass; try assumption.
    rewrite check_balance_ok by (intros k; specialize (Hk k); lia).
    f_equal. lia.
Qed.

Lemma validate_first_violation_witness :
  _validate_expression (chars "") = Err EmptyExpression /\
  _validate_expression (chars "M(1,a)") = Err (InvalidCharacter "a") /\
  _validate_expression (chars "M(1,2))") = Err UnmatchedClosingParen /\
  _validate_expression (chars "M(1,2") = Err UnbalancedParens /\
  _validate_expression (chars "5") = Err NoOperator /\
  _validate_expression (chars "M(1,2)") = Ok tt.
Proof.
  repeat apply conj.
  - apply (proj1 (validate_first_violation (chars ""))). reflexivity.
  - apply (proj1 (proj2 (validate_first_violation (chars "M(1,a)")))
             (chars "M(1,") "a" (chars ")")).
    + reflexivity.
    + apply check_chars_allowed. reflexivity.
    + apply char_in_false. reflexivity.
  - apply (proj1 (proj2 (proj2 (validate_first_violation (chars "M(1,2))"))))).
    + apply check_chars_allowed. reflexivity.
    + exists 7%nat. vm_compute. reflexivity.
  - apply (proj1 (proj2 (proj2 (proj2 (validate_first_violation (chars "M(1,2")))))).
    + discriminate.
    + apply check_chars_allowed. reflexivity.
    + intros k. do 7 (destruct k as [| k]; [vm_compute; discriminate |]).
      vm_compute. discriminate.
    + vm_compute. discriminate.
  - apply (proj1 (proj2 (proj2 (proj2 (proj2 (validate_first_violation (chars "5"))))))).
    + discriminate.
    + apply check_chars_allowed. reflexivity.
    + intros k. do 2 (destruct k as [| k]; [vm_compute; discriminate |]).
      vm_compute. discriminate.
    + reflexivity.
    + apply char_in_false. reflexivity.
    + apply char_in_false. reflexivity.
  - apply (proj2 (proj2 (proj2 (proj2 (proj2 (validate_first_violation (chars "M(1,2)"))))))).
    + discriminate.
    + apply check_chars_allowed. reflexivity.
    + intros k. do 7 (destruct k as [| k]; [vm_compute; discriminate |]).
      vm_compute. discriminate.
    + reflexivity.
    + right. apply char_in_In. reflexivity.
Defined.

(** C5.  When the scan meets [")"], the three topmost cells [b], [a],
    [operator] are popped in that order: with fewer than three cells the
    evaluation fails with [InsufficientOperands]; if [a] or [b] is not an
    integer it fails with [NonIntegerOperand]; if [operator] is neither
    [m] nor [M] it fails with [MalformedOperatorPlacement]; otherwise [min]
    (for [m]) or [max] (for [M]) of [(a, b)] is pushed in their place and
    the scan goes on at the next character. *)
Theorem close_paren_reduces (expression : expr) (fuel : nat) (st : state) :
  nth_error expression (pos st) = Some ")" ->
  ((List.length (stack st) < 3)%nat ->
   scan (S fuel) expression st = Some (Err InsufficientOperands)) /\
  (forall b a operator rest,
      stack st = b :: a :: operator :: rest ->
      (is_int a = false \/ is_int b = false ->
       scan (S fuel) expression st = Some (Err NonIntegerOperand)) /\
      (is_int a = true -> is_int b = true ->
       operator <> PyStr "m" -> operator <> PyStr "M" ->
       scan (S fuel) expression st = Some (Err MalformedOperatorPlacement)) /\
      (forall x y,
          a = PyInt x -> b = PyInt y -> operator = PyStr "m" ->
          scan (S fuel) expression st
          = scan fuel expression (mkState (pos st + 1) (PyInt (Z.min x y) :: rest))) /\
      (forall x y,
          a = PyInt x -> b = PyInt y -> operator = PyStr "M" ->
          scan (S fuel) expression st
          = scan fuel expression (mkState (pos st + 1) (PyInt (Z.max x y) :: rest)))).
Proof.
  intros Hn. cbn [scan]. rewrite Hn, body_close. split.
  - intros Hlen. destruct (stack st) as [| b [| a [| operator rest]]];
      try reflexivity. simpl in Hlen. lia.
  - intros b a operator rest ->. repeat apply conj.
    + intros [Ha | Hb]; destruct a, b; try discriminate; reflexivity.
    + intros Ha Hb Hm HM. destruct a, b; try discriminate.
      destruct operator as [z | c]; [reflexivity |].
      cbn [reduce Stack.pop is_int negb orb existsb pyvalue_eqb].
      destruct (Ascii.eqb_spec c "m") as [-> | _]; [congruence |].
      destruct (Ascii.eqb_spec c "M") as [-> | _]; [congruence |].
      reflexivity.
    + intros x y -> -> ->. reflexivity.
    + intros x y -> -> ->. reflexivity.
Qed.

Lemma close_paren_reduces_witness :
  scan 1 (chars "m(7,2)") (mkState 5 [PyInt 2; PyInt 7; PyStr "m"])
  = scan 0 (chars "m(7,2)") (mkState (5 + 1) [PyInt (Z.min 7 2)]) /\
  scan 1 (chars "m(7,)") (mkState 4 [PyInt 7; PyStr "m"])
  = Some (Err InsufficientOperands) /\
  scan 1 (chars "mm(7,2)") (mkState 6 [PyInt 2; PyStr "m"; PyStr "m"])
  = Some (Err NonIntegerOperand) /\
  scan 1 (chars "3(7,2)") (mkState 5 [PyInt 2; PyInt 7; PyInt 3])
  = Some (Err MalformedOperatorPlacement).
Proof.
  repeat apply conj.
  - apply (proj1 (proj2 (proj2
             (proj2 (close_paren_reduces (chars "m(7,2)") 0
                       (mkState 5 [PyInt 2; PyInt 7; PyStr "m"]) eq_refl)
                    (PyInt 2) (PyInt 7) (PyStr "m") [] eq_refl)))
             7 2); reflexivity.
  - apply (proj1 (close_paren_reduces (chars "m(7,)") 0
                    (mkState 4 [PyInt 7; PyStr "m"]) eq_refl)).
    simpl. lia.
  - apply (proj1 (proj2 (close_paren_reduces (chars "mm(7,2)") 0
                           (mkState 6 [PyInt 2; PyStr "m"; PyStr "m"]) eq_refl)
                        (PyInt 2) (PyStr "m") (PyStr "m") [] eq_refl)).
    left. reflexivity.
  - apply (proj1 (proj2 (proj2 (close_paren_reduces (chars "3(7,2)") 0
                                  (mkState 5 [PyInt 2; PyInt 7; PyInt 3]) eq_refl)
                               (PyInt 2) (PyInt 7) (PyInt 3) [] eq_refl)));
      try reflexivity; discriminate.
Defined.

(** C6.  After the scan of a validated expression has completed without
    error: an empty stack makes [evaluate] fail with [NoResult]; otherwise
    one cell is popped as the result, and a stack that is still not empty
    after that pop makes [evaluate] fail with [ExtraArguments].  In
    particular [evaluate("M(1,2)3")] fails with [ExtraArguments]. *)
Theorem evaluate_after_scan :
  (forall expression s,
      _validate_expression expression = Ok tt ->
      scan (List.length expression) expression initial = Some (Ok s) ->
      evaluate expression
      = Some (match s with
              | [] => Err NoResult
              | [v] => Ok v
              | _ :: _ :: _ => Err ExtraArguments
              end)) /\
  finish [] = Err NoResult /\
  (forall v, finish [v] = Ok v) /\
  (forall v w s, finish (v :: w :: s) = Err ExtraArguments) /\
  evaluate (chars "M(1,2)3") = Some (Err ExtraArguments).
Proof.
  repeat apply conj; try reflexivity.
  intros expression s Hv Hs.
  rewrite (evaluate_scan expression (Ok s) Hv Hs).
  now destruct s as [| v [| w s]].
Qed.

Lemma evaluate_after_scan_witness :
  evaluate (chars "M(1,2)3")
  = Some (match [PyInt 3; PyInt 2] with
          | [] => Err NoResult
          | [v] => Ok v
          | _ :: _ :: _ => Err ExtraArguments
          end) /\
  evaluate (chars "M(1,2)")
  = Some (match [PyInt 2] with
          | [] => Err NoResult
          | [v] => Ok v
          | _ :: _ :: _ => Err ExtraArguments
          end).
Proof.
  split.
  - apply (proj1 evaluate_after_scan (chars "M(1,2)3") [PyInt 3; PyInt 2]);
      reflexivity.
  - apply (proj1 evaluate_after_scan (chars "M(1,2)") [PyInt 2]); reflexivity.
Defined.

Lemma isdigit_not_minus (ch : ascii) : isdigit ch = true -> Ascii.eqb ch "-" = false.
Proof.
  intros H. apply isdigit_cases in H. simpl in H.
  repeat (destruct H as [<- | H]; [reflexivity |]). contradiction.
Qed.

(** C7.  During the scan of a validated expression, a ["-"] immediately
    followed by a digit makes [evaluate] fail with
    [NegativeNumberNotAllowed], and a ["."], or a digit immediately
    followed by ["."], makes it fail with [NonIntegerNotAllowed].  In
    particular [evaluate("M(-1,2)")] fails with [NegativeNumberNotAllowed]
    and [evaluate("M(1.5,2)")] with [NonIntegerNotAllowed]. *)
Theorem literal_rejections :
  (forall expression n st,
      _validate_expression expression = Ok tt ->
      reaches expression n initial st ->
      nth_error expression (pos st) = Some "-" ->
      char_at_is isdigit expression (pos st + 1) = true ->
      evaluate expression = Some (Err NegativeNumberNotAllowed)) /\
  (forall expression n st,
      _validate_expression expression = Ok tt ->
      reaches expression n initial st ->
      nth_error expression (pos st) = Some "." ->
      evaluate expression = Some (Err NonIntegerNotAllowed)) /\
  (forall expression n st ch,
      _validate_expression expression = Ok tt ->
      reaches expression n initial st ->
      nth_error expression (pos st) = Some ch ->
      isdigit ch = true ->
      nth_error expression (pos st + 1) = Some "." ->
      evaluate expression = Some (Err NonIntegerNotAllowed)) /\
  evaluate (chars "M(-1,2)") = Some (Err NegativeNumberNotAllowed) /\
  evaluate (chars "M(1.5,2)") = Some (Err NonIntegerNotAllowed).
Proof.
  repeat apply conj; try reflexivity.
  - intros expression n st Hv Hr Hn Hnext.
    apply (evaluate_reaches_raise expression n st "-" _ Hv Hr Hn).
    unfold body. now rewrite Hnext.
  - intros expression n st Hv Hr Hn.
    apply (evaluate_reaches_raise expression n st "." _ Hv Hr Hn).
    reflexivity.
  - intros expression n st ch Hv Hr Hn Hd Hnext.
    apply (evaluate_reaches_raise expression n st ch _ Hv Hr Hn).
    unfold body, char_at_is. rewrite Hnext, Hd, (isdigit_not_minus ch Hd).
    cbn [andb]. now rewrite orb_true_r.
Qed.

Lemma literal_rejections_witness :
  evaluate (chars "M(-1,2)") = Some (Err NegativeNumberNotAllowed) /\
  evaluate (chars "M(.5,2)") = Some (Err NonIntegerNotAllowed) /\
  evaluate (chars "M(1.5,2)") = Some (Err NonIntegerNotAllowed).
Proof.
  assert (Hstep : forall expression,
             nth_error expression 0 = Some "M" ->
             nth_error expression 1 = Some "(" ->
             reaches expression 2 initial (mkState 2 [PyStr "M"])).
  { intros expression H0 H1.
    apply reaches_step with (st' := mkState 1 [PyStr "M"]) (char := "(");
      [| exact H1 | reflexivity].
    apply reaches_step with (st' := initial) (char := "M");
      [apply reaches_refl | exact H0 | reflexivity]. }
  repeat apply conj.
  - apply (proj1 literal_rejections (chars "M(-1,2)") 2%nat (mkState 2 [PyStr "M"]));
      try reflexivity.
    apply Hstep; reflexivity.
  - apply (proj1 (proj2 literal_rejections) (chars "M(.5,2)") 2%nat
             (mkState 2 [PyStr "M"]));
      try reflexivity.
    apply Hstep; reflexivity.
  - apply (proj1 (proj2 (proj2 literal_rejections)) (chars "M(1.5,2)") 2%nat
             (mkState 2 [PyStr "M"]) "1");
      try reflexivity.
    apply Hstep; reflexivity.
Defined.

(** C8.  [evaluate("M(15,m(16,8))")] succeeds and returns [15], and
    [evaluate("m(3,m(7,2))")] succeeds and returns [2]. *)
Theorem evaluate_examples :
  evaluate (chars "M(15,m(16,8))") = Some (Ok (PyInt 15)) /\
  evaluate (chars "m(3,m(7,2))") = Some (Ok (PyInt 2)).
Proof. split; reflexivity. Qed.

(** C9.  For every input string [evaluate] terminates: every iteration of
    the main loop that does not raise moves the index strictly to the
    right and not past the end, the loop of [_read_number] does the same
    and always returns, so that the scan makes at most as many iterations
    as the expression has characters and [evaluate] returns. *)
Theorem evaluate_terminates (expression : expr) :
  (exists r, evaluate expression = Some r) /\
  (forall char st st',
      nth_error expression (pos st) = Some char ->
      body expression char st = Some (Continue st') ->
      (pos st < pos st' <= List.length expression)%nat) /\
  (forall fuel num i num' i',
      _read_number_loop fuel expression num i = Some (num', i') ->
      (i <= i')%nat /\ (i' <= Nat.max i (List.length expression))%nat /\
      (char_at_is isdigit expression i = true -> (i < i')%nat)) /\
  (forall start_idx, exists number i',
        _read_number expression start_idx = Some (number, i')) /\
  (forall n st, reaches expression n initial st ->
                (n <= List.length expression)%nat).
Proof.
  repeat apply conj.
  - unfold evaluate, evaluate_from.
    destruct (_validate_expression expression) as [[] | e]; [| eauto].
    destruct (scan_total expression (List.length expression) (mkState 0 Stack.empty))
      as [[s | e] Hs]; [simpl; lia | |]; rewrite Hs; eauto.
  - intros char st st'. apply body_advance.
  - intros fuel num i num' i'. apply _read_number_loop_bounds.
  - apply _read_number_total.
  - intros n st Hr. apply reaches_pos in Hr. simpl in Hr. lia.
Qed.

Lemma evaluate_terminates_witness :
  (2 < 4 <= 8)%nat /\
  ((2 <= 4)%nat /\ (4 <= Nat.max 2 8)%nat /\
   (char_at_is isdigit (chars "M(12,34)") 2 = true -> (2 < 4)%nat)) /\
  (1 <= 8)%nat.
Proof.
  split; [| split].
  - apply (proj1 (proj2 (evaluate_terminates (chars "M(12,34)")))
             "1" (mkState 2 [PyStr "M"]) (mkState 4 [PyInt 12; PyStr "M"]));
      reflexivity.
  - apply (proj1 (proj2 (proj2 (evaluate_terminates (chars "M(12,34)"))))
             8%nat 0 2%nat 12 4%nat).
    reflexivity.
  - apply (proj2 (proj2 (proj2 (proj2 (evaluate_terminates (chars "M(12,34)")))))
             1%nat (mkState 1 [PyStr "M"])).
    apply reaches_step with (st' := initial) (char := "M");
      [apply reaches_refl | reflexivity | reflexivity].
Defined.

Lemma reduce_length (s s' : Stack.t) :
  reduce s = Ok s' -> List.length s = (List.length s' + 2)%nat.
Proof.
  unfold reduce.
  destruct s as [| b [| a [| operator s]]]; simpl; try discriminate.
  destruct a, b, operator; simpl;
    repeat match goal with
           | |- context [if ?c then _ else _] => destruct c
           end;
    intros H; try discriminate H; injection H as <-; simpl; lia.
Qed.

(** C10.  For every input string [evaluate] never fails with [NoResult]:
    when the scan of a validated expression completes without error the
    stack is not empty, because the validated expression has an [m] or an
    [M], which the scan pushes, and a successful reduction at [")"] takes
    three cells and puts one back. *)
Theorem evaluate_never_NoResult :
  (forall expression, evaluate expression <> Some (Err NoResult)) /\
  (forall expression s,
      _validate_expression expression = Ok tt ->
      scan (List.length expression) expression initial = Some (Ok s) ->
      s <> []) /\
  (forall s s', reduce s = Ok s' ->
                s' <> [] /\ List.length s = (List.length s' + 2)%nat).
Proof.
  assert (Hscan : forall expression s,
             _validate_expression expression = Ok tt ->
             scan (List.length expression) expression initial = Some (Ok s) ->
             s <> []).
  { intros expression s Hv Hs. apply _validate_expression_ok in Hv.
    destruct Hv as [_ Hop]. eapply scan_nonempty; eassumption. }
  repeat apply conj.
  - intros expression He. unfold evaluate, evaluate_from in He.
    destruct (_validate_expression expression) as [[] | e] eqn:Hv.
    + fold initial in He.
      destruct (scan (List.length expression) expression initial)
        as [[s | e] |] eqn:Hs; [| | discriminate He].
      * apply (Hscan expression s Hv) in Hs.
        destruct s as [| v [| w s]]; [congruence | discriminate He | discriminate He].
      * injection He as ->. apply scan_err_reaches in Hs.
        destruct Hs as [n [st' [char [_ [_ Hb]]]]].
        now apply body_not_NoResult in Hb.
    + injection He as ->. apply _validate_expression_errors in Hv.
      destruct Hv as [Hv | [[ch Hv] | [Hv | [Hv | Hv]]]]; discriminate Hv.
  - exact Hscan.
  - intros s s' Hr. split; [now apply reduce_nonempty in Hr | now apply reduce_length].
Qed.

Lemma evaluate_never_NoResult_witness :
  [PyInt 3; PyInt 2] <> [] /\
  ([PyInt 2] <> [] /\
   List.length [PyInt 2; PyInt 1; PyStr "M"] = (List.length [PyInt 2] + 2)%nat).
Proof.
  split.
  - apply (proj1 (proj2 evaluate_never_NoResult) (chars "M(1,2)3")); reflexivity.
  - apply (proj2 (proj2 evaluate_never_NoResult) [PyInt 2; PyInt 1; PyStr "M"]).
    reflexivity.
Defined.

(** * Further properties of the code *)

(** ** The validator, read backwards *)

Lemma check_chars_error (expression : expr) (e : error) :
  check_chars expression = Err e ->
  exists pre ch suf,
    e = InvalidCharacter ch /\ expression = pre ++ ch :: suf /\
    Forall allowed pre /\ ~ allowed ch.
Proof.
  induction expression as [| c rest IH]; cbn [check_chars]; [discriminate |].
  destruct (char_in c ALLOWED_CHARS) eqn:Hc; cbn [negb].
  - intros H. destruct (IH H) as [pre [ch [suf [-> [-> [Hpre Hch]]]]]].
    exists (c :: pre), ch, suf. repeat split; try assumption.
    constructor; [now apply char_in_In | assumption].
  - intros H. injection H as <-. exists [], c, rest.
    repeat split; [constructor | now apply char_in_false].
Qed.

Lemma check_balance_ok_inv (expression : expr) :
  forall balance balance',
    0 <= balance ->
    check_balance expression balance = Ok balance' ->
    (forall k, 0 <= balance + depth (firstn k expression)) /\
    balance' = balance + depth expression.
Proof.
  induction expression as [| ch rest IH]; intros balance balance' Hb H.
  - simpl in H. injection H as <-. split; [| simpl; lia].
    intros k. rewrite firstn_nil. simpl. lia.
  - cbn [check_balance] in H. cbn [depth].
    assert (Hstep : forall d,
               0 <= balance + d ->
               check_balance rest (balance + d) = Ok balance' ->
               (if Ascii.eqb ch "(" then 1 else if Ascii.eqb ch ")" then -1 else 0) = d ->
               (forall k, 0 <= balance + depth (firstn k (ch :: rest))) /\
               balance' = balance + (d + depth rest)).
    { intros d Hd Hc Heq. destruct (IH _ _ Hd Hc) as [Hk ->]. split; [| lia].
      intros [| k]; simpl; [lia |]. rewrite Heq. specialize (Hk k). lia. }
    destruct (Ascii.eqb ch "(").
    + apply (Hstep 1); [lia | exact H | reflexivity].
    + destruct (Ascii.eqb ch ")").
      * destruct (balance - 1 <? 0) eqn:Hneg; [discriminate H |].
        apply Z.ltb_ge in Hneg.
        apply (Hstep (-1)); [lia | exact H | reflexivity].
      * apply (Hstep 0); [lia | | reflexivity].
        now rewrite Z.add_0_r.
Qed.

Lemma check_balance_err_inv (expression : expr) :
  forall balance e,
    0 <= balance ->
    check_balance expression balance = Err e ->
    exists k, balance + depth (firstn k expression) < 0.
Proof.
  induction expression as [| ch rest IH]; intros balance e Hb H;
    [discriminate H |].
  cbn [check_balance] in H.
  assert (Hstep : forall d,
             0 <= balance + d ->
             check_balance rest (balance + d) = Err e ->
             (if Ascii.eqb ch "(" then 1 else if Ascii.eqb ch ")" then -1 else 0) = d ->
             exists k, balance + depth (firstn k (ch :: rest)) < 0).
  { intros d Hd Hc Heq. destruct (IH _ _ Hd Hc) as [k Hk].
    exists (S k). simpl. rewrite Heq. lia. }
  destruct (Ascii.eqb ch "(") eqn:Hopen.
  - apply (Hstep 1); [lia | exact H | reflexivity].
  - destruct (Ascii.eqb ch ")") eqn:Hclose.
    + destruct (balance - 1 <? 0) eqn:Hneg.
      * apply Z.ltb_lt in Hneg. exists 1%nat. simpl.
        rewrite Hopen, Hclose. lia.
      * apply Z.ltb_ge in Hneg.
        apply (Hstep (-1)); [lia | exact H | reflexivity].
    + apply (Hstep 0); [lia | | reflexivity].
      now rewrite Z.add_0_r.
Qed.

(** X1.  Validation succeeds exactly on the non-empty strings over the
    allowed characters in which no prefix closes more parentheses than it
    opens, as many are closed as opened, and an [m] or an [M] occurs. *)
Theorem validate_ok_iff (expression : expr) :
  _validate_expression expression = Ok tt <->
  expression <> [] /\
  Forall allowed expression /\
  (forall k, 0 <= depth (firstn k expression)) /\
  depth expression = 0 /\
  (In "m" expression \/ In "M" expression).
Proof.
  split.
  - intros Hv. destruct (_validate_expression_ok _ Hv) as [Hall Hop].
    unfold _validate_expression in Hv.
    destruct expression as [| c0 rest]; [discriminate Hv |].
    rewrite (check_chars_ok _ Hall) in Hv.
    destruct (check_balance (c0 :: rest) 0) as [balance |] eqn:Hb;
      [| discriminate Hv].
    apply check_balance_ok_inv in Hb; [| lia]. destruct Hb as [Hk ->].
    destruct (0 + depth (c0 :: rest) =? 0) eqn:Hz; [| discriminate Hv].
    apply Z.eqb_eq in Hz.
    split; [discriminate |]. split; [assumption |].
    split; [intros k; specialize (Hk k); lia |].
    split; [lia | assumption].
  - intros [Hne [Hall [Hk [Hd Hop]]]].
    apply _validate_expression_pass; try assumption.
    rewrite check_balance_ok by (intros k; specialize (Hk k); lia).
    f_equal. lia.
Qed.

Lemma validate_ok_iff_witness :
  _validate_expression (chars "m(3,m(7,2))") = Ok tt.
Proof.
  apply (proj2 (validate_ok_iff (chars "m(3,m(7,2))"))).
  split; [discriminate |].
  split; [apply check_chars_allowed; reflexivity |].
  split; [| split; [reflexivity | left; apply char_in_In; reflexivity]].
  intros k. do 12 (destruct k as [| k]; [vm_compute; discriminate |]).
  vm_compute. discriminate.
Defined.

(** X2.  Every error of the validator is exact: the rule it names is
    violated and the rules checked before it hold. *)
Theorem validate_error_exact (expression : expr) :
  (_validate_expression expression = Err EmptyExpression -> expression = []) /\
  (forall ch,
      _validate_expression expression = Err (InvalidCharacter ch) ->
      exists pre suf, expression = pre ++ ch :: suf /\
                      Forall allowed pre /\ ~ allowed ch) /\
  (_validate_expression expression = Err UnmatchedClosingParen ->
   Forall allowed expression /\
   exists k, depth (firstn k expression) < 0) /\
  (_validate_expression expression = Err UnbalancedParens ->
   Forall allowed expression /\
   (forall k, 0 <= depth (firstn k expression)) /\
   depth expression <> 0) /\
  (_validate_expression expression = Err NoOperator ->
   expression <> [] /\ Forall allowed expression /\
   (forall k, 0 <= depth (firstn k expression)) /\
   depth expression = 0 /\
   ~ In "m" expression /\ ~ In "M" expression).
Proof.
  unfold _validate_expression.
  destruct expression as [| c0 rest].
  { repeat apply conj; try discriminate. reflexivity. }
  set (expression := c0 :: rest).
  destruct (check_chars expression) as [[] | e1] eqn:Hc.
  - apply check_chars_allowed in Hc.
    destruct (check_balance expression 0) as [balance | e2] eqn:Hb.
    + apply check_balance_ok_inv in Hb; [| lia]. destruct Hb as [Hk ->].
      assert (Hk' : forall k, 0 <= depth (firstn k expression))
        by (intros k; specialize (Hk k); lia).
      destruct (0 + depth expression =? 0) eqn:Hz; cbn [negb].
      * apply Z.eqb_eq in Hz.
        destruct (char_in "m" expression) eqn:Hm; cbn [negb andb];
          [repeat apply conj; discriminate |].
        destruct (char_in "M" expression) eqn:HM; cbn [negb andb];
          [repeat apply conj; discriminate |].
        apply char_in_false in Hm. apply char_in_false in HM.
        repeat apply conj; try discriminate.
        intros _. split; [discriminate |]. split; [assumption |].
        split; [assumption |]. split; [lia |]. split; assumption.
      * apply Z.eqb_neq in Hz.
        repeat apply conj; try discriminate.
        intros _. split; [assumption |]. split; [assumption | lia].
    + assert (He := check_balance_error _ _ _ Hb). subst e2.
      apply check_balance_err_inv in Hb; [| lia]. destruct Hb as [k Hk].
      repeat apply conj; try discriminate.
      intros _. split; [assumption | exists k; lia].
  - destruct (check_chars_error _ _ Hc) as [pre [ch [suf [-> [Heq [Hpre Hch]]]]]].
    repeat apply conj; try discriminate.
    intros ch' H. injection H as <-. exists pre, suf.
    split; [assumption |]. split; assumption.
Qed.

Lemma validate_error_exact_witness :
  (exists pre suf, chars "M(1, 2)" = pre ++ " " :: suf /\
                   Forall allowed pre /\ ~ allowed " ") /\
  (Forall allowed (chars "M(1,2))") /\
   exists k, depth (firstn k (chars "M(1,2))")) < 0).
Proof.
  split.
  - apply (proj1 (proj2 (validate_error_exact (chars "M(1, 2)"))) " ").
    reflexivity.
  - apply (proj1 (proj2 (proj2 (validate_error_exact (chars "M(1,2))"))))).
    reflexivity.
Defined.

(** ** What [_read_number] returns *)

(** Every string splits into its longest prefix of digits and the rest. *)
Lemma digits_span (l : expr) :
  exists digits suf,
    l = digits ++ suf /\ forallb isdigit digits = true /\
    char_at_is isdigit suf 0 = false.
Proof.
  induction l as [| c l IH].
  - exists [], []. repeat split.
  - destruct (isdigit c) eqn:Hc.
    + destruct IH as [digits [suf [-> [Hall Hsuf]]]].
      exists (c :: digits), suf. simpl. rewrite Hc, Hall. repeat split.
      exact Hsuf.
    + exists [], (c :: l). repeat split. unfold char_at_is. simpl. exact Hc.
Qed.

(** [_read_number] on the longest run of digits from [start_idx]. *)
Lemma _read_number_longest_run (expression : expr) (start_idx : nat) :
  exists digits suf,
    skipn start_idx expression = digits ++ suf /\
    forallb isdigit digits = true /\
    char_at_is isdigit suf 0 = false /\
    _read_number expression start_idx
    = Some (decimal digits, (start_idx + List.length digits)%nat).
Proof.
  destruct (digits_span (skipn start_idx expression)) as [digits [suf [Hs [Hall Hsuf]]]].
  exists digits, suf. repeat split; try assumption.
  destruct (Nat.le_gt_cases start_idx (List.length expression)) as [Hle | Hgt].
  - assert (Hlen : List.length (firstn start_idx expression) = start_idx)
      by (apply firstn_length_le; exact Hle).
    assert (Hexp : expression = firstn start_idx expression ++ digits ++ suf)
      by (rewrite <- Hs; symmetry; apply firstn_skipn).
    remember (firstn start_idx expression) as pre eqn:Hpre.
    clear Hpre Hs Hle. subst start_idx expression.
    unfold _read_number, decimal.
    apply _read_number_loop_run; try assumption.
    rewrite !length_app. lia.
  - assert (Hnil : skipn start_idx expression = [])
      by (apply skipn_all2; lia).
    rewrite Hnil in Hs. symmetry in Hs. apply app_eq_nil in Hs.
    destruct Hs as [-> ->].
    unfold _read_number.
    assert (Hn : nth_error expression start_idx = None)
      by (apply nth_error_None; lia).
    destruct (List.length expression); simpl; rewrite Hn;
      rewrite Nat.add_0_r; reflexivity.
Qed.


Lemma nth_error_skipn_shift (l : expr) (i k : nat) :
  nth_error (skipn i l) k = nth_error l (i + k).
Proof.
  revert l. induction i as [| i IH]; intros l; [reflexivity |].
  destruct l as [| x l]; simpl; [now destruct k | apply IH].
Qed.

(** At a digit, [_read_number] reads a literal, and every character it
    passes over is a digit. *)
Lemma _read_number_at_digit (expression : expr) (i i' : nat) (number : Z) :
  char_at_is isdigit expression i = true ->
  _read_number expression i = Some (number, i') ->
  literal_of expression number /\
  forall j ch, (i <= j < i')%nat -> nth_error expression j = Some ch ->
               isdigit ch = true.
Proof.
  intros Hd Hrn.
  destruct (_read_number_longest_run expression i)
    as [digits [suf [Hs [Hall [Hsuf Hr]]]]].
  rewrite Hrn in Hr. injection Hr as -> ->.
  assert (Hlt : (i < List.length expression)%nat).
  { unfold char_at_is in Hd.
    destruct (nth_error expression i) eqn:Hn; [| discriminate Hd].
    apply nth_error_Some. congruence. }
  split.
  - exists (firstn i expression), digits, suf.
    repeat split; try assumption.
    + rewrite <- Hs. symmetry. apply firstn_skipn.
    + intros ->. simpl in Hs. unfold char_at_is in Hd, Hsuf.
      rewrite <- Hs, nth_error_skipn_shift, Nat.add_0_r in Hsuf.
      destruct (nth_error expression i); congruence.
  - intros j ch Hj Hn.
    replace j with (i + (j - i))%nat in Hn by lia.
    rewrite <- nth_error_skipn_shift, Hs in Hn.
    rewrite nth_error_app1 in Hn by lia.
    apply nth_error_In in Hn. revert ch Hn. now apply forallb_forall.
Qed.

(** ** The characters the scan passes over *)

(** An iteration that does not raise passes over no point and no minus
    sign. *)
Lemma body_passes (expression : expr) (char : ascii) (st st' : state) :
  nth_error expression (pos st) = Some char ->
  body expression char st = Some (Continue st') ->
  forall j ch, (pos st <= j < pos st')%nat ->
               nth_error expression j = Some ch ->
               ch <> "." /\ ch <> "-".
Proof.
  intros Hnth H j ch Hj Hch. unfold body in H.
  destruct (Ascii.eqb char "-" && char_at_is isdigit expression (pos st + 1));
    [discriminate H |].
  destruct (Ascii.eqb char "."
            || isdigit char && char_at_is (Ascii.eqb ".") expression (pos st + 1)) eqn:E2;
    [discriminate H |].
  destruct (isdigit char) eqn:Hd.
  { destruct (_read_number expression (pos st)) as [[number i'] |] eqn:Hrn;
      [| discriminate H].
    injection H as <-. cbn [pos] in Hj.
    assert (Hat : char_at_is isdigit expression (pos st) = true)
      by (unfold char_at_is; now rewrite Hnth).
    destruct (_read_number_at_digit _ _ _ _ Hat Hrn) as [_ Hdigits].
    specialize (Hdigits j ch Hj Hch).
    split; intros ->; discriminate Hdigits. }
  assert (Hone : pos st' = (pos st + 1)%nat /\
                 (char_in char ["m"; "M"; ")"; "("; ","] = true)).
  { destruct (char_in char ["m"; "M"]) eqn:Hop.
    - injection H as <-. split; [reflexivity |].
      apply char_in_In in Hop. apply char_in_In. simpl in *. tauto.
    - destruct (Ascii.eqb char ")") eqn:Hclose.
      + apply Ascii.eqb_eq in Hclose. subst char.
        destruct (reduce (stack st)); [| discriminate H].
        injection H as <-. split; reflexivity.
      + destruct (char_in char ["("; ","]) eqn:Hsep; [| discriminate H].
        injection H as <-. split; [reflexivity |].
        apply char_in_In in Hsep. apply char_in_In. simpl in *. tauto. }
  destruct Hone as [Hpos Hin]. rewrite Hpos in Hj.
  assert (j = pos st) by lia. subst j.
  rewrite Hnth in Hch. injection Hch as <-.
  apply char_in_In in Hin. simpl in Hin.
  repeat (destruct Hin as [<- | Hin]; [split; discriminate |]). contradiction.
Qed.

Lemma reaches_passes (expression : expr) (n : nat) (st st' : state) :
  reaches expression n st st' ->
  forall j ch, (pos st <= j < pos st')%nat ->
               nth_error expression j = Some ch ->
               ch <> "." /\ ch <> "-".
Proof.
  induction 1 as [st | n st st1 st2 c Hr IH Hn1 Hb1]; intros j ch Hj Hch;
    [lia |].
  destruct (Nat.lt_ge_cases j (pos st1)) as [Hlt | Hge].
  - apply (IH j ch); [lia | assumption].
  - apply (body_passes _ _ _ _ Hn1 Hb1 j ch); [lia | assumption].
Qed.

(** What a call of [evaluate] that succeeds went through. *)
Lemma evaluate_ok_inv (expression : expr) (v : pyvalue) :
  evaluate expression = Some (Ok v) ->
  _validate_expression expression = Ok tt /\
  exists n st, reaches expression n initial st /\
               nth_error expression (pos st) = None /\
               stack st = [v].
Proof.
  unfold evaluate, evaluate_from.
  destruct (_validate_expression expression) as [[] | e]; [| discriminate].
  fold initial.
  destruct (scan (List.length expression) expression initial)
    as [[s | e] |] eqn:Hs; try discriminate.
  intros H. split; [reflexivity |].
  apply scan_ok_reaches in Hs. destruct Hs as [n [st' [Hr [_ [Hend <-]]]]].
  exists n, st'. repeat split; try assumption.
  pose proof (finish_cases (stack st')) as Hf.
  destruct (stack st') as [| w [| w' s]]; rewrite Hf in H; try discriminate H.
  now injection H as <-.
Qed.

(** X4.  An expression in which a point or a minus sign occurs, wherever
    it stands, is never evaluated to a result: [evaluate] returns a value
    only for strings free of both characters. *)
Theorem evaluate_ok_no_point_no_minus (expression : expr) (v : pyvalue) :
  evaluate expression = Some (Ok v) ->
  ~ In "." expression /\ ~ In "-" expression.
Proof.
  intros H. apply evaluate_ok_inv in H.
  destruct H as [_ [n [st [Hr [Hend _]]]]].
  apply nth_error_None in Hend.
  assert (Hall : forall ch, In ch expression -> ch <> "." /\ ch <> "-").
  { intros ch Hin. apply In_nth_error in Hin. destruct Hin as [j Hj].
    apply (reaches_passes _ _ _ _ Hr j ch); [| assumption].
    assert (j < List.length expression)%nat by (apply nth_error_Some; congruence).
    cbn [pos initial]. lia. }
  split; intros Hin; apply Hall in Hin; tauto.
Qed.

Lemma evaluate_ok_no_point_no_minus_witness :
  ~ In "." (chars "M(15,m(16,8))") /\ ~ In "-" (chars "M(15,m(16,8))").
Proof.
  apply (evaluate_ok_no_point_no_minus (chars "M(15,m(16,8))") (PyInt 15)).
  reflexivity.
Defined.

(** ** The numbers on the stack *)

Lemma reduce_selects (s s' : Stack.t) (n : Z) :
  reduce s = Ok s' -> In (PyInt n) s' -> In (PyInt n) s.
Proof.
  unfold reduce.
  destruct s as [| b [| a [| operator s]]]; simpl; try discriminate.
  destruct a as [x |], b as [y |], operator; simpl;
    repeat match goal with
           | |- context [if ?c then _ else _] => destruct c
           end;
    intros H; try discriminate H; injection H as <-;
    intros [Hin | Hin]; auto;
    injection Hin as <-.
  - destruct (Z.min_spec x y) as [[_ ->] | [_ ->]]; auto.
  - destruct (Z.max_spec x y) as [[_ ->] | [_ ->]]; auto.
Qed.

Lemma body_literals (expression : expr) (char : ascii) (st st' : state) :
  nth_error expression (pos st) = Some char ->
  body expression char st = Some (Continue st') ->
  (forall n, In (PyInt n) (stack st) -> literal_of expression n) ->
  forall n, In (PyInt n) (stack st') -> literal_of expression n.
Proof.
  intros Hnth H Hinv n. unfold body in H.
  destruct (Ascii.eqb char "-" && char_at_is isdigit expression (pos st + 1));
    [discriminate H |].
  destruct (Ascii.eqb char "."
            || isdigit char && char_at_is (Ascii.eqb ".") expression (pos st + 1));
    [discriminate H |].
  destruct (isdigit char) eqn:Hd.
  { destruct (_read_number expression (pos st)) as [[number i'] |] eqn:Hrn;
      [| discriminate H].
    injection H as <-. cbn [stack Stack.push].
    intros [Hin | Hin]; [| now apply Hinv].
    injection Hin as <-.
    assert (Hat : char_at_is isdigit expression (pos st) = true)
      by (unfold char_at_is; now rewrite Hnth).
    now destruct (_read_number_at_digit _ _ _ _ Hat Hrn). }
  destruct (char_in char ["m"; "M"]).
  { injection H as <-. cbn [stack Stack.push].
    intros [Hin | Hin]; [discriminate Hin | now apply Hinv]. }
  destruct (Ascii.eqb char ")").
  { destruct (reduce (stack st)) as [s' |] eqn:Hr; [| discriminate H].
    injection H as <-. cbn [stack]. intros Hin.
    apply Hinv. eapply reduce_selects; eassumption. }
  destruct (char_in char ["("; ","]); [| discriminate H].
  injection H as <-. apply Hinv.
Qed.

Lemma reaches_literals (expression : expr) (n : nat) (st st' : state) :
  reaches expression n st st' ->
  (forall x, In (PyInt x) (stack st) -> literal_of expression x) ->
  forall x, In (PyInt x) (stack st') -> literal_of expression x.
Proof.
  induction 1 as [st | n st st1 st2 c Hr IH Hn1 Hb1]; intros Hinv;
    [assumption |].
  eapply body_literals; [eassumption | eassumption | now apply IH].
Qed.

(** X5.  [evaluate] invents no number: an integer that it returns is the
    value of one of the literals written in the expression. *)
Theorem evaluate_returns_literal (expression : expr) (n : Z) :
  evaluate expression = Some (Ok (PyInt n)) ->
  literal_of expression n.
Proof.
  intros H. apply evaluate_ok_inv in H.
  destruct H as [_ [k [st [Hr [_ Hs]]]]].
  apply (reaches_literals _ _ _ _ Hr); [intros x [] |].
  rewrite Hs. now left.
Qed.

Lemma evaluate_returns_literal_witness :
  literal_of (chars "M(15,m(16,8))") 15.
Proof.
  apply (evaluate_returns_literal (chars "M(15,m(16,8))") 15). reflexivity.
Defined.

(** ** Calls on the same parser object *)

(** The definitions that keep the stack of a [raise] return and raise what
    the ones above do. *)
Lemma reduce_st_reduce (s : Stack.t) :
  match reduce s with
  | Ok s' => reduce_st s = (Ok tt, s')
  | Err e => fst (reduce_st s) = Err e
  end.
Proof.
  unfold reduce, reduce_st.
  destruct s as [| b [| a [| operator s]]]; simpl; try reflexivity.
  destruct a, b, operator; simpl;
    repeat match goal with
           | |- context [if ?c then _ else _] => destruct c
           end; reflexivity.
Qed.

Lemma body_st_body (expression : expr) (char : ascii) (st : state) :
  body expression char st
  = match body_st expression char st with
    | None => None
    | Some (Ok _, st') => Some (Continue st')
    | Some (Err e, _) => Some (Raise e)
    end.
Proof.
  unfold body, body_st.
  pose proof (reduce_st_reduce (stack st)) as Hr.
  destruct (_read_number expression (pos st)) as [[number i'] |];
    destruct (reduce (stack st)) as [s' | e];
    destruct (reduce_st (stack st)) as [[[] | e'] s''];
    simpl in Hr; try discriminate Hr; try (injection Hr as <-);
    repeat match goal with
           | |- context [if ?c then _ else _] => destruct c
           end; reflexivity.
Qed.

Lemma scan_st_scan (expression : expr) :
  forall fuel st,
    scan fuel expression st
    = match scan_st fuel expression st with
      | None => None
      | Some (Ok _, s) => Some (Ok s)
      | Some (Err e, _) => Some (Err e)
      end.
Proof.
  induction fuel as [| fuel IH]; intros st; simpl;
    destruct (nth_error expression (pos st)) as [char |]; try reflexivity.
  rewrite body_st_body.
  destruct (body_st expression char st) as [[[[] | e] st'] |];
    [apply IH | reflexivity | reflexivity].
Qed.

Lemma finish_st_finish (s : Stack.t) : fst (finish_st s) = finish s.
Proof. destruct s as [| v [| w s]]; reflexivity. Qed.

(** The first call on a new parser returns what [evaluate] says. *)
Lemma evaluate_first_call (expression : expr) :
  option_map fst (MiniMaxParser.evaluate (MiniMaxParser.__init__ expression))
  = evaluate expression.
Proof.
  unfold MiniMaxParser.evaluate, MiniMaxParser.__init__, evaluate, evaluate_from.
  cbn [MiniMaxParser.expression MiniMaxParser._stack].
  destruct (_validate_expression expression) as [[] | e]; [| reflexivity].
  rewrite scan_st_scan.
  destruct (scan_st (List.length expression) expression (mkState 0 Stack.empty))
    as [[[[] | e] s] |]; try reflexivity.
  rewrite <- finish_st_finish. now destruct (finish_st s).
Qed.

(** A reduction that does not run short of operands does not look at the
    cells below its three. *)
Lemma reduce_st_frame (s s' frame : Stack.t) (r : result unit) :
  reduce_st s = (r, s') ->
  r <> Err InsufficientOperands ->
  reduce_st (s ++ frame) = (r, s' ++ frame).
Proof.
  unfold reduce_st.
  destruct s as [| b [| a [| operator s]]]; simpl;
    try (intros H; injection H as <- <-; congruence).
  destruct a, b, operator; simpl;
    repeat match goal with
           | |- context [if ?c then _ else _] => destruct c
           end;
    intros H _; injection H as <- <-; reflexivity.
Qed.

(** Running short of operands leaves the stack empty. *)
Lemma reduce_st_short (s s' : Stack.t) :
  reduce_st s = (Err InsufficientOperands, s') -> s' = [].
Proof.
  unfold reduce_st.
  destruct s as [| b [| a [| operator s]]]; simpl;
    try (intros H; now injection H as <-).
  destruct a, b, operator; simpl;
    repeat match goal with
           | |- context [if ?c then _ else _] => destruct c
           end; discriminate.
Qed.

Lemma body_st_frame (expression : expr) (char : ascii) (p p' : nat)
      (s s' frame : Stack.t) (r : result unit) :
  body_st expression char (mkState p s) = Some (r, mkState p' s') ->
  r <> Err InsufficientOperands ->
  body_st expression char (mkState p (s ++ frame))
  = Some (r, mkState p' (s' ++ frame)).
Proof.
  unfold body_st. cbn [pos stack].
  destruct (Ascii.eqb char "-" && char_at_is isdigit expression (p + 1));
    [intros H _; now injection H as <- <- <- |].
  destruct (Ascii.eqb char "."
            || isdigit char && char_at_is (Ascii.eqb ".") expression (p + 1));
    [intros H _; now injection H as <- <- <- |].
  destruct (isdigit char).
  { destruct (_read_number expression p) as [[number i'] |]; [| discriminate].
    intros H _. now injection H as <- <- <-. }
  destruct (char_in char ["m"; "M"]); [intros H _; now injection H as <- <- <- |].
  destruct (Ascii.eqb char ")").
  { destruct (reduce_st s) as [r1 s1] eqn:Hr. intros H Hne.
    assert (Hr1 : r1 <> Err InsufficientOperands).
    { destruct r1 as [[] | e]; [discriminate |].
      injection H as <- _ _. exact Hne. }
    rewrite (reduce_st_frame _ _ frame _ Hr Hr1).
    destruct r1 as [[] | e]; now injection H as <- <- <-. }
  destruct (char_in char ["("; ","]); intros H _; now injection H as <- <- <-.
Qed.

Lemma body_st_short (expression : expr) (char : ascii) (st st' : state) :
  body_st expression char st = Some (Err InsufficientOperands, st') ->
  stack st' = [].
Proof.
  unfold body_st.
  destruct (_read_number expression (pos st)) as [[number i'] |];
    destruct (reduce_st (stack st)) as [[[] | e] s1] eqn:Hr;
    repeat match goal with
           | |- context [if ?c then _ else _] => destruct c
           end;
    intros H; try discriminate H;
    injection H as -> <-; now apply reduce_st_short in Hr.
Qed.

Lemma scan_st_frame (expression : expr) (frame : Stack.t) :
  forall fuel p s r s',
    scan_st fuel expression (mkState p s) = Some (r, s') ->
    r <> Err InsufficientOperands ->
    scan_st fuel expression (mkState p (s ++ frame)) = Some (r, s' ++ frame).
Proof.
  induction fuel as [| fuel IH]; intros p s r s' H Hne; simpl in *;
    destruct (nth_error expression p) as [char |];
    try discriminate H;
    try (now injection H as <- <-).
  destruct (body_st expression char (mkState p s)) as [[r1 [p1 s1]] |] eqn:Hb;
    [| discriminate H].
  assert (Hr1 : r1 <> Err InsufficientOperands).
  { destruct r1 as [[] | e]; [discriminate |]. injection H as <- _. exact Hne. }
  rewrite (body_st_frame _ _ _ _ _ _ frame _ Hb Hr1).
  destruct r1 as [[] | e]; [now apply IH | now injection H as <- <-].
Qed.

Lemma scan_st_short (expression : expr) :
  forall fuel st s',
    scan_st fuel expression st = Some (Err InsufficientOperands, s') ->
    s' = [].
Proof.
  induction fuel as [| fuel IH]; intros st s' H; simpl in H;
    destruct (nth_error expression (pos st)) as [char |];
    try discriminate H.
  destruct (body_st expression char st) as [[[[] | e] st1] |] eqn:Hb;
    try discriminate H.
  - now apply IH in H.
  - injection H as -> <-. now apply body_st_short in Hb.
Qed.

Lemma scan_st_total (expression : expr) (st : state) :
  (List.length expression - pos st <= List.length expression)%nat ->
  exists r s, scan_st (List.length expression) expression st = Some (r, s).
Proof.
  intros Hf. destruct (scan_total expression _ st Hf) as [r Hr].
  rewrite scan_st_scan in Hr.
  destruct (scan_st (List.length expression) expression st) as [[r1 s] |];
    [eauto | discriminate Hr].
Qed.

Lemma error_eq_InsufficientOperands (e : error) :
  e = InsufficientOperands \/ e <> InsufficientOperands.
Proof. destruct e; (now left) || (right; discriminate). Qed.

(** One call on an object whose stack is empty, or lies below a scan that
    neither runs short of operands nor ends with a single cell: the call
    returns what the first call returned and leaves such a stack again. *)
Lemma evaluate_call_stable (expression : expr) (r0 : result unit)
      (s0 frame : Stack.t) :
  _validate_expression expression = Ok tt ->
  scan_st (List.length expression) expression (mkState 0 []) = Some (r0, s0) ->
  frame = [] \/
  (r0 <> Err InsufficientOperands /\ (r0 = Ok tt -> (2 <= List.length s0)%nat)) ->
  exists frame',
    MiniMaxParser.evaluate (MiniMaxParser.make expression frame)
    = Some (match r0 with
            | Err e => Err e
            | Ok _ => fst (finish_st s0)
            end,
            MiniMaxParser.make expression frame') /\
    (frame' = [] \/
     (r0 <> Err InsufficientOperands /\ (r0 = Ok tt -> (2 <= List.length s0)%nat))).
Proof.
  intros Hv Hs Hinv. unfold MiniMaxParser.evaluate.
  cbn [MiniMaxParser.expression MiniMaxParser._stack]. rewrite Hv.
  destruct Hinv as [-> | [Hne Hlen]].
  - rewrite Hs. destruct r0 as [[] | e].
    + destruct s0 as [| v [| w s]]; cbn.
      * exists []. split; [reflexivity | now left].
      * exists []. split; [reflexivity | now left].
      * exists (w :: s). split; [reflexivity |]. right.
        split; [discriminate | intros _; simpl; lia].
    + exists s0. split; [reflexivity |].
      destruct (error_eq_InsufficientOperands e) as [-> | Hne].
      * left. now apply scan_st_short in Hs.
      * right. split; [congruence | discriminate].
  - change (mkState 0 frame) with (mkState 0 ([] ++ frame)).
    rewrite (scan_st_frame expression frame _ _ _ _ _ Hs Hne).
    destruct r0 as [[] | e].
    + specialize (Hlen eq_refl).
      destruct s0 as [| v [| w s]]; simpl in Hlen; try lia. cbn.
      exists (w :: s ++ frame). split; [reflexivity |]. right.
      split; [discriminate | intros _; simpl; lia].
    + exists (s0 ++ frame). split; [reflexivity |]. right.
      split; [assumption | discriminate].
Qed.

Lemma call_again_invalid (e : error) :
  forall k self,
    _validate_expression (MiniMaxParser.expression self) = Err e ->
    call_again k self = Some (Err e, self).
Proof.
  induction k as [| k IH]; intros self Hv; simpl;
    unfold MiniMaxParser.evaluate; rewrite Hv; [reflexivity |].
  now apply IH.
Qed.

Lemma call_again_stable (expression : expr) (r0 : result unit) (s0 : Stack.t) :
  _validate_expression expression = Ok tt ->
  scan_st (List.length expression) expression (mkState 0 []) = Some (r0, s0) ->
  forall k frame,
    frame = [] \/
    (r0 <> Err InsufficientOperands /\ (r0 = Ok tt -> (2 <= List.length s0)%nat)) ->
    exists self',
      call_again k (MiniMaxParser.make expression frame)
      = Some (match r0 with
              | Err e => Err e
              | Ok _ => fst (finish_st s0)
              end, self').
Proof.
  intros Hv Hs. induction k as [| k IH]; intros frame Hinv;
    destruct (evaluate_call_stable _ _ _ _ Hv Hs Hinv) as [frame' [Hcall Hinv']];
    simpl; rewrite Hcall; [eauto | now apply IH].
Qed.

(** X6.  [evaluate] may be called again on the same parser object: although
    [self._stack] is not reset between the calls and a failed call can
    leave cells on it, every further call returns or raises what the first
    call on the new object did. *)
Theorem evaluate_repeatable (expression : expr) (k : nat) :
  exists r self',
    evaluate expression = Some r /\
    call_again k (MiniMaxParser.__init__ expression) = Some (r, self').
Proof.
  unfold MiniMaxParser.__init__.
  destruct (_validate_expression expression) as [[] | e] eqn:Hv.
  - destruct (scan_st_total expression (mkState 0 [])) as [r0 [s0 Hs]];
      [simpl; lia |].
    destruct (call_again_stable _ _ _ Hv Hs k [] (or_introl eq_refl))
      as [self' Hk].
    eexists. exists self'. split; [| exact Hk].
    unfold evaluate, evaluate_from. rewrite Hv, scan_st_scan.
    change (mkState 0 Stack.empty) with (mkState 0 []). rewrite Hs.
    destruct r0 as [[] | e]; [| reflexivity].
    now rewrite finish_st_finish.
  - exists (Err e), (MiniMaxParser.make expression Stack.empty). split.
    + unfold evaluate, evaluate_from. now rewrite Hv.
    + now apply call_again_invalid.
Qed.

(** X7.  The scan does not look below the cells it has pushed itself: run
    over a stack that already holds cells, it ends with the same stack on
    top of them, or raises the same error, as long as that error is not
    [InsufficientOperands] (a scan that runs short of operands would take
    them from below). *)
Theorem scan_frame (expression : expr) (fuel p : nat) (s frame : Stack.t) :
  (forall s',
      scan fuel expression (mkState p s) = Some (Ok s') ->
      scan fuel expression (mkState p (s ++ frame)) = Some (Ok (s' ++ frame))) /\
  (forall e,
      scan fuel expression (mkState p s) = Some (Err e) ->
      e <> InsufficientOperands ->
      scan fuel expression (mkState p (s ++ frame)) = Some (Err e)).
Proof.
  split.
  - intros s' H. rewrite scan_st_scan in H. rewrite scan_st_scan.
    destruct (scan_st fuel expression (mkState p s)) as [[[[] | e] s1] |] eqn:Hs;
      try discriminate H.
    injection H as <-.
    rewrite (scan_st_frame expression frame _ _ _ _ _ Hs); [reflexivity | discriminate].
  - intros e H Hne. rewrite scan_st_scan in H. rewrite scan_st_scan.
    destruct (scan_st fuel expression (mkState p s)) as [[[[] | e1] s1] |] eqn:Hs;
      try discriminate H.
    injection H as <-.
    rewrite (scan_st_frame expression frame _ _ _ _ _ Hs); [reflexivity | congruence].
Qed.

Lemma scan_frame_witness :
  scan 6 (chars "M(1,2)") (mkState 0 ([] ++ [PyInt 9]))
  = Some (Ok ([PyInt 2] ++ [PyInt 9])) /\
  scan 7 (chars "M(-1,2)") (mkState 0 ([] ++ [PyInt 9]))
  = Some (Err NegativeNumberNotAllowed).
Proof.
  split.
  - apply (proj1 (scan_frame (chars "M(1,2)") 6 0 [] [PyInt 9])). reflexivity.
  - apply (proj2 (scan_frame (chars "M(-1,2)") 7 0 [] [PyInt 9]));
      [reflexivity | discriminate].
Defined.

(** ** The console *)

Lemma run_loop_rejected (line : expr) (rest : list expr) :
  rejected line ->
  run_loop (line :: rest) = option_map (prepend (report line)) (run_loop rest).
Proof.
  intros Hrej. unfold report. cbn [run_loop].
  destruct (strip line) as [| c l] eqn:Hs; [reflexivity |].
  destruct Hrej as [Hnil | [e He]]; [congruence |].
  rewrite Hs in He. now rewrite He.
Qed.


Lemma run_loop_all_rejected (inputs : list expr) :
  Forall rejected inputs ->
  run_loop inputs = Some (flat_map report inputs ++ [Prompt], EOFError).
Proof.
  induction 1 as [| line rest Hrej _ IH]; [reflexivity |].
  rewrite (run_loop_rejected _ _ Hrej), IH. cbn [option_map flat_map].
  unfold prepend. cbn [fst snd]. now rewrite app_assoc.
Qed.




(** X9.  When no line is accepted, [run] reports every line in turn, asks
    once more and ends with the [EOFError] of [input]; it prints no
    result. *)
Theorem run_no_success (inputs : list expr) :
  Forall rejected inputs ->
  run inputs
  = Some ([Title; Example; Advice] ++ flat_map report inputs ++ [Prompt],
          EOFError).
Proof.
  intros Hall. unfold run. now rewrite (run_loop_all_rejected _ Hall).
Qed.

Lemma run_no_success_witness :
  run [chars ""; chars "M(1,2"]
  = Some ([Title; Example; Advice]
            ++ flat_map report [chars ""; chars "M(1,2"] ++ [Prompt],
          EOFError).
Proof.
  apply (run_no_success [chars ""; chars "M(1,2"]).
  constructor; [left; reflexivity |].
  constructor; [| constructor].
  right. exists UnbalancedParens. reflexivity.
Defined.

(** ** White space around a line *)

Lemma lstrip_spaces (spaces s : expr) :
  forallb isspace spaces = true -> lstrip (spaces ++ s) = lstrip s.
Proof.
  induction spaces as [| c spaces IH]; simpl; [reflexivity |].
  intros H. apply andb_true_iff in H. destruct H as [-> H]. now apply IH.
Qed.

Lemma rstrip_spaces (spaces s : expr) :
  forallb isspace spaces = true -> rstrip (s ++ spaces) = rstrip s.
Proof.
  intros H. unfold rstrip. rewrite rev_app_distr, lstrip_spaces; [reflexivity |].
  rewrite forallb_forall in *. intros x Hx. apply H. now apply in_rev.
Qed.

Lemma strip_pad (line padded : expr) :
  pad line padded -> strip padded = strip line.
Proof.
  intros [before [after [Hb [Ha ->]]]]. unfold strip.
  rewrite (lstrip_spaces _ _ Hb).
  induction line as [| c line IH]; simpl.
  - rewrite <- (app_nil_r after), (lstrip_spaces _ _ Ha). reflexivity.
  - destruct (isspace c); [exact IH |].
    now rewrite app_comm_cons, rstrip_spaces.
Qed.

(** X10.  White space added before and after the lines that are typed
    changes nothing of what [run] prints and of how it ends. *)
Theorem run_padded (inputs inputs' : list expr) :
  Forall2 pad inputs inputs' ->
  run inputs' = run inputs.
Proof.
  intros H. unfold run. f_equal.
  induction H as [| line padded rest rest' Hpad _ IH]; [reflexivity |].
  cbn [run_loop]. rewrite (strip_pad _ _ Hpad), IH. reflexivity.
Qed.

Lemma run_padded_witness :
  run [chars "  M(1, 2)"; chars "M(1,2) "] = run [chars "M(1, 2)"; chars "M(1,2)"].
Proof.
  apply (run_padded [chars "M(1, 2)"; chars "M(1,2)"]
                    [chars "  M(1, 2)"; chars "M(1,2) "]).
  constructor; [exists (chars "  "), []; repeat split |].
  constructor; [exists [], (chars " "); repeat split | constructor].
Defined.

(** ** class Stack *)






(** ** Malformed applications *)

(** [reaches_render] and the single iterations, with the index written as
    the length of the part of the expression already scanned. *)
Lemma reaches_tree (expression pre suf : expr) (t : tree) (s : Stack.t) :
  well_formed t = true ->
  expression = pre ++ render t ++ suf ->
  char_at_is isdigit suf 0 = false ->
  char_at_is (Ascii.eqb ".") suf 0 = false ->
  exists n,
    reaches expression n
            (mkState (List.length pre) s)
            (mkState (List.length (pre ++ render t)) (PyInt (fold_tree t) :: s)).
Proof.
  intros Hwf Hexp Hd Hp. rewrite length_app.
  now apply reaches_render with (suf := suf).
Qed.

Lemma reaches_char (expression pre suf : expr) (char : ascii) (s s' : Stack.t) :
  expression = pre ++ char :: suf ->
  body expression char (mkState (List.length pre) s)
  = Some (Continue (mkState (List.length pre + 1) s')) ->
  reaches expression 1
          (mkState (List.length pre) s)
          (mkState (List.length (pre ++ [char])) s').
Proof.
  intros Hexp Hb. rewrite length_app. cbn [List.length].
  apply reaches_one with (char := char); [| exact Hb].
  cbn [pos]. rewrite Hexp. apply nth_error_middle.
Qed.

Lemma op_char_not_digit (o : op) (l : expr) :
  char_at_is isdigit (op_char o :: l) 0 = false /\
  char_at_is (Ascii.eqb ".") (op_char o :: l) 0 = false.
Proof. destruct o; split; reflexivity. Qed.

(** X12.  Two expressions of the grammar written one after the other,
    with no operator around them, are rejected with [ExtraArguments]. *)
Theorem evaluate_two_expressions (t1 t2 : tree) :
  well_formed t1 = true -> is_node t1 = true ->
  well_formed t2 = true -> is_node t2 = true ->
  evaluate (render t1 ++ render t2) = Some (Err ExtraArguments).
Proof.
  intros Hwf1 Hn1 Hwf2 Hn2.
  destruct t2 as [| o2 l2 r2]; [discriminate Hn2 |].
  destruct t1 as [| o1 l1 r1]; [discriminate Hn1 |].
  set (e1 := render (Node o1 l1 r1)). set (e2 := render (Node o2 l2 r2)).
  assert (Hv : _validate_expression (e1 ++ e2) = Ok tt).
  { apply _validate_expression_pass.
    - discriminate.
    - apply Forall_app. split; now apply render_allowed.
    - unfold e1. rewrite check_balance_render by (assumption || lia).
      rewrite <- (app_nil_r e2). unfold e2.
      rewrite check_balance_render by (assumption || lia). reflexivity.
    - destruct o1; simpl; tauto. }
  destruct (reaches_tree (e1 ++ e2) [] e2 (Node o1 l1 r1) [] Hwf1 eq_refl)
    as [n1 R1]; try apply op_char_not_digit.
  destruct (reaches_tree (e1 ++ e2) e1 [] (Node o2 l2 r2)
                         [PyInt (fold_tree (Node o1 l1 r1))] Hwf2)
    as [n2 R2]; try reflexivity.
  { now rewrite app_nil_r. }
  pose proof (reaches_trans _ _ _ _ _ _ R1 R2) as R.
  rewrite (evaluate_reaches_exit _ _ _ Hv R); [reflexivity |].
  cbn [pos]. apply nth_error_end.
Qed.

Lemma evaluate_two_expressions_witness :
  evaluate (render (Node Min (Lit (chars "1")) (Lit (chars "2")))
              ++ render (Node Max (Lit (chars "3")) (Lit (chars "4"))))
  = Some (Err ExtraArguments).
Proof.
  apply (evaluate_two_expressions
           (Node Min (Lit (chars "1")) (Lit (chars "2")))
           (Node Max (Lit (chars "3")) (Lit (chars "4")))); reflexivity.
Defined.

Ltac split_expression H :=
  rewrite H; repeat (rewrite <- app_assoc; cbn [app]); reflexivity.

(** An operator applied to a single expression. *)
Lemma evaluate_one_operand (o : op) (t1 : tree) :
  well_formed t1 = true ->
  evaluate (op_char o :: "(" :: render t1 ++ [")"])
  = Some (Err InsufficientOperands).
Proof.
  intros Hwf1.
  remember (op_char o :: "(" :: render t1 ++ [")"]) as expression eqn:Hexp.
  assert (Hv : _validate_expression expression = Ok tt).
  { rewrite Hexp. apply _validate_expression_pass.
    - discriminate.
    - constructor; [apply op_char_allowed |].
      constructor; [unfold allowed, ALLOWED_CHARS; simpl; tauto |].
      apply Forall_app. split; [now apply render_allowed |].
      constructor; [unfold allowed, ALLOWED_CHARS; simpl; tauto | constructor].
    - destruct o; simpl;
        rewrite check_balance_render by (assumption || lia); reflexivity.
    - destruct o; simpl; tauto. }
  pose (p1 := [] ++ [op_char o]). pose (p2 := p1 ++ ["("]).
  assert (R1 : reaches expression 1 (mkState (List.length (@nil ascii)) [])
                       (mkState (List.length p1) [PyStr (op_char o)])).
  { eapply reaches_char; [split_expression Hexp | apply body_operator]. }
  assert (R2 : reaches expression 1 (mkState (List.length p1) [PyStr (op_char o)])
                       (mkState (List.length p2) [PyStr (op_char o)])).
  { eapply reaches_char; [unfold p1; split_expression Hexp | apply body_open]. }
  destruct (reaches_tree expression p2 [")"] t1 [PyStr (op_char o)] Hwf1)
    as [n3 R3]; try reflexivity.
  { unfold p2, p1. split_expression Hexp. }
  pose proof (reaches_trans _ _ _ _ _ _ (reaches_trans _ _ _ _ _ _ R1 R2) R3) as R.
  apply (evaluate_reaches_raise expression _ _ ")" _ Hv R).
  - assert (Hsplit : expression = (p2 ++ render t1) ++ [")"])
      by (unfold p2, p1; split_expression Hexp).
    cbn [pos]. rewrite Hsplit at 1. apply nth_error_middle.
  - rewrite body_close. reflexivity.
Qed.

(** An operator applied to three expressions. *)
Lemma evaluate_three_operands (o : op) (t1 t2 t3 : tree) :
  well_formed t1 = true -> well_formed t2 = true -> well_formed t3 = true ->
  evaluate (op_char o :: "(" :: render t1 ++ "," :: render t2
                     ++ "," :: render t3 ++ [")"])
  = Some (Err MalformedOperatorPlacement).
Proof.
  intros Hwf1 Hwf2 Hwf3.
  remember (op_char o :: "(" :: render t1 ++ "," :: render t2
                     ++ "," :: render t3 ++ [")"]) as expression eqn:Hexp.
  assert (Hv : _validate_expression expression = Ok tt).
  { rewrite Hexp. apply _validate_expression_pass.
    - discriminate.
    - constructor; [apply op_char_allowed |].
      constructor; [unfold allowed, ALLOWED_CHARS; simpl; tauto |].
      apply Forall_app. split; [now apply render_allowed |].
      constructor; [unfold allowed, ALLOWED_CHARS; simpl; tauto |].
      apply Forall_app. split; [now apply render_allowed |].
      constructor; [unfold allowed, ALLOWED_CHARS; simpl; tauto |].
      apply Forall_app. split; [now apply render_allowed |].
      constructor; [unfold allowed, ALLOWED_CHARS; simpl; tauto | constructor].
    - destruct o; simpl;
        rewrite check_balance_render by (assumption || lia); simpl;
        rewrite check_balance_render by (assumption || lia); simpl;
        rewrite check_balance_render by (assumption || lia); reflexivity.
    - destruct o; simpl; tauto. }
  pose (p1 := [] ++ [op_char o]). pose (p2 := p1 ++ ["("]).
  pose (p3 := (p2 ++ render t1) ++ [","]).
  pose (p4 := (p3 ++ render t2) ++ [","]).
  set (v1 := PyInt (fold_tree t1)). set (v2 := PyInt (fold_tree t2)).
  assert (R1 : reaches expression 1 (mkState (List.length (@nil ascii)) [])
                       (mkState (List.length p1) [PyStr (op_char o)])).
  { eapply reaches_char; [split_expression Hexp | apply body_operator]. }
  assert (R2 : reaches expression 1 (mkState (List.length p1) [PyStr (op_char o)])
                       (mkState (List.length p2) [PyStr (op_char o)])).
  { eapply reaches_char; [unfold p1; split_expression Hexp | apply body_open]. }
  destruct (reaches_tree expression p2 ("," :: render t2 ++ "," :: render t3 ++ [")"])
                         t1 [PyStr (op_char o)] Hwf1)
    as [n3 R3]; try reflexivity.
  { unfold p2, p1. split_expression Hexp. }
  assert (R4 : reaches expression 1
                       (mkState (List.length (p2 ++ render t1))
                                [v1; PyStr (op_char o)])
                       (mkState (List.length p3) [v1; PyStr (op_char o)])).
  { eapply reaches_char; [unfold p2, p1; split_expression Hexp | apply body_comma]. }
  destruct (reaches_tree expression p3 ("," :: render t3 ++ [")"])
                         t2 [v1; PyStr (op_char o)] Hwf2)
    as [n5 R5]; try reflexivity.
  { unfold p3, p2, p1. split_expression Hexp. }
  assert (R6 : reaches expression 1
                       (mkState (List.length (p3 ++ render t2))
                                [v2; v1; PyStr (op_char o)])
                       (mkState (List.length p4) [v2; v1; PyStr (op_char o)])).
  { eapply reaches_char;
      [unfold p3, p2, p1; split_expression Hexp | apply body_comma]. }
  destruct (reaches_tree expression p4 [")"] t3 [v2; v1; PyStr (op_char o)] Hwf3)
    as [n7 R7]; try reflexivity.
  { unfold p4, p3, p2, p1. split_expression Hexp. }
  pose proof (reaches_trans _ _ _ _ _ _
                (reaches_trans _ _ _ _ _ _
                   (reaches_trans _ _ _ _ _ _
                      (reaches_trans _ _ _ _ _ _
                         (reaches_trans _ _ _ _ _ _
                            (reaches_trans _ _ _ _ _ _ R1 R2) R3) R4) R5) R6) R7)
    as R.
  apply (evaluate_reaches_raise expression _ _ ")" _ Hv R).
  - assert (Hsplit : expression = (p4 ++ render t3) ++ [")"])
      by (unfold p4, p3, p2, p1; split_expression Hexp).
    cbn [pos]. rewrite Hsplit at 1. apply nth_error_middle.
  - rewrite body_close. reflexivity.
Qed.

(** X13.  An operator with the wrong number of operands is rejected: with
    one operand the reduction at the closing parenthesis runs short and
    [evaluate] fails with [InsufficientOperands]; with three operands the
    cell where the operator is expected holds the first operand and
    [evaluate] fails with [MalformedOperatorPlacement]. *)
Theorem evaluate_wrong_arity (o : op) (t1 t2 t3 : tree) :
  well_formed t1 = true -> well_formed t2 = true -> well_formed t3 = true ->
  evaluate (op_char o :: "(" :: render t1 ++ [")"])
  = Some (Err InsufficientOperands) /\
  evaluate (op_char o :: "(" :: render t1 ++ "," :: render t2
                     ++ "," :: render t3 ++ [")"])
  = Some (Err MalformedOperatorPlacement).
Proof.
  intros Hwf1 Hwf2 Hwf3. split.
  - now apply evaluate_one_operand.
  - now apply evaluate_three_operands.
Qed.

Lemma evaluate_wrong_arity_witness :
  evaluate (chars "m(7)") = Some (Err InsufficientOperands) /\
  evaluate (chars "m(7,M(1,2),3)") = Some (Err MalformedOperatorPlacement).
Proof.
  apply (evaluate_wrong_arity Min (Lit (chars "7"))
           (Node Max (Lit (chars "1")) (Lit (chars "2"))) (Lit (chars "3")));
    reflexivity.
Defined.

(** ** The values that [evaluate] returns *)

(** X14.  An integer that [evaluate] returns is never negative. *)
Theorem evaluate_returns_nonnegative (expression : expr) (n : Z) :
  evaluate expression = Some (Ok (PyInt n)) -> 0 <= n.
Proof. intros H. now apply evaluate_returns in H. Qed.

Lemma evaluate_returns_nonnegative_witness : 0 <= 15.
Proof.
  apply (evaluate_returns_nonnegative (chars "M(15,m(16,8))") 15). reflexivity.
Defined.

Lemma firstn_succ (l : expr) (p : nat) (ch : ascii) :
  nth_error l p = Some ch -> firstn (p + 1) l = firstn p l ++ [ch].
Proof.
  revert l. induction p as [| p IH]; intros [| x l] H; try discriminate H.
  - simpl in H. now injection H as ->.
  - simpl in *. f_equal. now apply IH.
Qed.

Lemma reduce_shape (s s' : Stack.t) :
  reduce s = Ok s' ->
  (3 <= List.length s)%nat /\ exists n rest, s' = PyInt n :: rest.
Proof.
  unfold reduce.
  destruct s as [| b [| a [| operator s]]]; simpl; try discriminate.
  destruct a, b, operator; simpl;
    repeat match goal with
           | |- context [if ?c then _ else _] => destruct c
           end;
    intros H; try discriminate H; injection H as <-;
    (split; [lia | eauto]).
Qed.

Lemma body_stack_shape (expression : expr) (char : ascii) (st st' : state) :
  nth_error expression (pos st) = Some char ->
  body expression char st = Some (Continue st') ->
  stack_shape expression st ->
  stack_shape expression st'.
Proof.
  intros Hnth H Hinv. unfold body in H.
  destruct (Ascii.eqb char "-" && char_at_is isdigit expression (pos st + 1));
    [discriminate H |].
  destruct (Ascii.eqb char "."
            || isdigit char && char_at_is (Ascii.eqb ".") expression (pos st + 1));
    [discriminate H |].
  destruct (isdigit char).
  { destruct (_read_number expression (pos st)) as [[number i'] |];
      [| discriminate H].
    injection H as <-. right. right. cbn [stack Stack.push].
    destruct Hinv as [[-> _] | [[c [l1 [l2 [-> _]]]] | [Hne _]]];
      split; try discriminate; intros c0; discriminate. }
  destruct (char_in char ["m"; "M"]) eqn:Hop.
  { injection H as <-. cbn [stack pos Stack.push].
    apply char_in_In in Hop.
    destruct Hinv as [[Hs Hsep] | [[c [l1 [l2 [Hs _]]]] | [Hne _]]].
    - right. left. exists char, (firstn (pos st) expression), [].
      rewrite Hs. repeat split.
      + simpl in Hop. intuition congruence.
      + now apply firstn_succ.
      + exact Hsep.
      + constructor.
    - right. right. rewrite Hs. split; [discriminate | intros c0; discriminate].
    - right. right. split; [discriminate |].
      intros c0 Heq. destruct (stack st); [congruence | discriminate Heq]. }
  destruct (Ascii.eqb char ")").
  { destruct (reduce (stack st)) as [s' |] eqn:Hr; [| discriminate H].
    injection H as <-. apply reduce_shape in Hr.
    destruct Hr as [_ [n [rest ->]]]. right. right. cbn [stack].
    split; [discriminate | intros c0; discriminate]. }
  destruct (char_in char ["("; ","]) eqn:Hsep; [| discriminate H].
  injection H as <-. unfold stack_shape in *. cbn [stack pos].
  apply char_in_In in Hsep.
  assert (Hchar : char = "(" \/ char = ",") by (simpl in Hsep; intuition congruence).
  rewrite (firstn_succ _ _ _ Hnth).
  destruct Hinv as [[Hs Hl] | [[c [l1 [l2 [Hs [Hc [Hl [H1 H2]]]]]]] | Hother]].
  - left. split; [exact Hs |].
    apply Forall_app. split; [exact Hl | now constructor].
  - right. left. exists c, l1, (l2 ++ [char]). rewrite Hl.
    repeat split; try assumption.
    + now rewrite <- app_assoc.
    + apply Forall_app. split; [exact H2 | now constructor].
  - right. right. exact Hother.
Qed.

Lemma reaches_stack_shape (expression : expr) (n : nat) (st st' : state) :
  reaches expression n st st' ->
  stack_shape expression st ->
  stack_shape expression st'.
Proof.
  induction 1 as [st | n st st1 st2 c Hr IH Hn1 Hb1]; intros Hinv;
    [assumption |].
  eapply body_stack_shape; [eassumption | eassumption | now apply IH].
Qed.

Lemma depth_app (l1 l2 : expr) : depth (l1 ++ l2) = depth l1 + depth l2.
Proof.
  induction l1 as [| ch l1 IH]; simpl; [reflexivity |]. rewrite IH. lia.
Qed.

Lemma depth_separators (l : expr) :
  separators l -> 0 <= depth l /\ (depth l = 0 -> Forall (eq ",") l).
Proof.
  induction 1 as [| ch l [-> | ->] _ [IH0 IH]].
  - split; [simpl; lia | constructor].
  - change (depth ("(" :: l)) with (1 + depth l).
    split; [lia | intros Hd; lia].
  - change (depth ("," :: l)) with (0 + depth l).
    split; [lia |]. intros Hd. constructor; [reflexivity | apply IH; lia].
Qed.

Lemma depth_commas (l : expr) : Forall (eq ",") l -> depth l = 0.
Proof.
  induction 1 as [| ch l <- _ IH]; [reflexivity |].
  change (depth ("," :: l)) with (0 + depth l). lia.
Qed.

Lemma _validate_expression_depth (expression : expr) :
  _validate_expression expression = Ok tt -> depth expression = 0.
Proof.
  intros Hv. destruct (_validate_expression_ok _ Hv) as [Hall _].
  unfold _validate_expression in Hv.
  destruct expression as [| c0 rest]; [discriminate Hv |].
  rewrite (check_chars_ok _ Hall) in Hv.
  destruct (check_balance (c0 :: rest) 0) as [balance |] eqn:Hb;
    [| discriminate Hv].
  apply check_balance_ok_inv in Hb; [| lia]. destruct Hb as [_ ->].
  destruct (0 + depth (c0 :: rest) =? 0) eqn:Hz; [| discriminate Hv].
  apply Z.eqb_eq in Hz. lia.
Qed.

Lemma Forall_firstn' (P : ascii -> Prop) (l : expr) :
  Forall P l -> forall k, Forall P (firstn k l).
Proof.
  induction 1 as [| x l Hx _ IH]; intros [| k]; simpl; try constructor;
    [assumption | apply IH].
Qed.

(** The scan runs through a string of commas without touching the
    stack. *)
Lemma reaches_commas (expression : expr) (l : expr) :
  forall pre suf s,
    expression = pre ++ l ++ suf ->
    Forall (eq ",") l ->
    exists n, reaches expression n
                      (mkState (List.length pre) s)
                      (mkState (List.length (pre ++ l)) s).
Proof.
  induction l as [| ch l IH]; intros pre suf s Hexp Hl.
  - exists 0%nat. rewrite app_nil_r. apply reaches_refl.
  - inversion_clear Hl as [| ? ? Hch Hl']. subst ch.
    assert (R1 : reaches expression 1 (mkState (List.length pre) s)
                         (mkState (List.length (pre ++ [","])) s)).
    { apply reaches_char with (suf := l ++ suf); [exact Hexp | apply body_comma]. }
    destruct (IH (pre ++ [","]) suf s) as [n R2]; [| assumption |].
    { rewrite Hexp, <- app_assoc. reflexivity. }
    exists (n + 1)%nat.
    replace (pre ++ "," :: l) with ((pre ++ [","]) ++ l)
      by (rewrite <- app_assoc; reflexivity).
    eapply reaches_trans; eassumption.
Qed.

(** X15.  [evaluate] returns an operator letter instead of a number
    exactly on the strings that consist of that one letter and of commas:
    [m], [M], [,m], [M,,] and the like. *)
Theorem evaluate_returns_letter (expression : expr) (c : ascii) :
  evaluate expression = Some (Ok (PyStr c)) <->
  (c = "m" \/ c = "M") /\
  exists l1 l2, expression = l1 ++ c :: l2 /\
                Forall (eq ",") l1 /\ Forall (eq ",") l2.
Proof.
  split.
  - intros H. apply evaluate_ok_inv in H.
    destruct H as [Hv [n [st [Hr [Hend Hs]]]]].
    apply reaches_stack_shape in Hr;
      [| left; split; [reflexivity | constructor]].
    destruct Hr as [[Hnil _] | [[c' [l1 [l2 [Hs' [Hc [Hl [H1 H2]]]]]]] | [_ Hno]]];
      [congruence | | now apply Hno in Hs].
    rewrite Hs in Hs'. injection Hs' as <-.
    apply nth_error_None in Hend. rewrite firstn_all2 in Hl by exact Hend.
    split; [exact Hc |]. exists l1, l2. split; [exact Hl |].
    apply _validate_expression_depth in Hv.
    rewrite Hl, depth_app in Hv. cbn [depth] in Hv.
    destruct (depth_separators _ H1) as [H1a H1b].
    destruct (depth_separators _ H2) as [H2a H2b].
    assert (Hc0 : (if Ascii.eqb c "(" then 1 else if Ascii.eqb c ")" then -1 else 0) = 0)
      by (destruct Hc as [-> | ->]; reflexivity).
    rewrite Hc0 in Hv. split; [apply H1b | apply H2b]; lia.
  - intros [Hc [l1 [l2 [Hexp [H1 H2]]]]].
    assert (Hop : exists o, c = op_char o)
      by (destruct Hc as [-> | ->]; [exists Min | exists Max]; reflexivity).
    destruct Hop as [o ->].
    assert (Hcomma : forall l, Forall (eq ",") l -> Forall allowed l).
    { intros l Hl. eapply Forall_impl; [| exact Hl].
      intros ch <-. unfold allowed, ALLOWED_CHARS. simpl. tauto. }
    assert (Hv : _validate_expression expression = Ok tt).
    { apply _validate_expression_pass.
      - rewrite Hexp. now destruct l1.
      - rewrite Hexp. apply Forall_app. split; [now apply Hcomma |].
        constructor; [apply op_char_allowed | now apply Hcomma].
      - assert (Hk : forall k, depth (firstn k expression) = 0).
        { intros k. rewrite Hexp.
          rewrite firstn_app, depth_app.
          rewrite (depth_commas (firstn k l1)) by now apply Forall_firstn'.
          destruct (k - List.length l1)%nat as [| k']; [reflexivity |].
          cbn [firstn depth].
          rewrite (depth_commas (firstn k' l2)) by now apply Forall_firstn'.
          destruct o; reflexivity. }
        rewrite check_balance_ok by (intros k; rewrite Hk; lia).
        specialize (Hk (List.length expression)).
        rewrite firstn_all in Hk. now rewrite Hk.
      - rewrite Hexp. destruct o; [left | right]; apply in_elt. }
    destruct (reaches_commas expression l1 [] (op_char o :: l2) [] Hexp H1)
      as [n1 R1].
    assert (R2 : reaches expression 1 (mkState (List.length ([] ++ l1)) [])
                         (mkState (List.length (([] ++ l1) ++ [op_char o]))
                                  [PyStr (op_char o)])).
    { apply reaches_char with (suf := l2); [exact Hexp | apply body_operator]. }
    destruct (reaches_commas expression l2 (([] ++ l1) ++ [op_char o]) []
                             [PyStr (op_char o)])
      as [n3 R3]; [| exact H2 |].
    { rewrite Hexp, app_nil_r, <- app_assoc. reflexivity. }
    pose proof (reaches_trans _ _ _ _ _ _ (reaches_trans _ _ _ _ _ _ R1 R2) R3) as R.
    rewrite (evaluate_reaches_exit _ _ _ Hv R); [reflexivity |].
    cbn [pos]. replace ((([] ++ l1) ++ [op_char o]) ++ l2) with expression;
      [apply nth_error_end |].
    rewrite Hexp, <- app_assoc. reflexivity.
Qed.

Lemma evaluate_returns_letter_witness :
  evaluate (chars ",M,,") = Some (Ok (PyStr "M")).
Proof.
  apply (proj2 (evaluate_returns_letter (chars ",M,,") "M")).
  split; [right; reflexivity |].
  exists (chars ","), (chars ",,"). repeat split; repeat constructor.
Defined.
